(** * qwik-speak: the inlining plugin and the key/default split of extraction

    A shallow embedding of [tools/inline/plugin.ts] and of the key loop of
    [tools/extract/index.ts].

    Conventions of the embedding.
    - A JavaScript string is a Rocq [string]; a character is one [ascii]
      code unit, so the character classes below are the Latin-1 part of the
      ECMAScript ones.
    - [undefined] is [None] of an [option]; an uncaught [TypeError] is the
      [TypeError] constructor of [outcome].
    - A regular expression literal of the source is written as a term of
      [re], and run by a backtracking matcher that follows the ECMAScript
      semantics (leftmost alternative first, greedy repetition, an iteration
      that consumes nothing is rejected). No expression of the plugin has a
      capturing group inside a repetition or a back-reference, so captures
      are only ever added.
    - A value of the translation data is a JSON value. [v[k]] reads the own
      properties of [v] first and then the members that [v] inherits from
      the built-in objects of the runtime; these objects are no code of the
      repository, and the runtime is a parameter of the embedding.
    - [log] of [tools/logger] appends its message to a trace. *)

From Stdlib Require Import Ascii String.
From stdpp Require Import strings gmap list pretty.

Open Scope string_scope.
Open Scope nat_scope.
Open Scope list_scope.

(** ** Strings *)

Module Js.

(** [s.length] *)
Definition len (s : string) : nat := String.length s.

(** [s.slice(0, n)] *)
Fixpoint take (n : nat) (s : string) : string :=
  match n, s with
  | S n', String a s' => String a (take n' s')
  | _, _ => ""
  end.

(** [s.startsWith(p)], returning what follows [p]. *)
Fixpoint strip_prefix (p s : string) : option string :=
  match p, s with
  | "", _ => Some s
  | String a p', String b s' => if Ascii.eqb a b then strip_prefix p' s' else None
  | String _ _, "" => None
  end.

(** [s.indexOf(pat)], returned as the text before the first occurrence and
    the text after it; [None] is the index -1. *)
Fixpoint find_first (pat s : string) : option (string * string) :=
  match strip_prefix pat s with
  | Some post => Some ("", post)
  | None =>
      match s with
      | "" => None
      | String a s' =>
          match find_first pat s' with
          | Some (pre, post) => Some (String a pre, post)
          | None => None
          end
      end
  end.

(** The code units of a string, each as a string of length one. *)
Fixpoint chars (s : string) : list string :=
  match s with
  | "" => []
  | String a s' => String a "" :: chars s'
  end.

Fixpoint split_go (fuel : nat) (sep s : string) : list string :=
  match fuel with
  | 0 => [s]
  | S fuel' =>
      match find_first sep s with
      | None => [s]
      | Some (pre, post) => pre :: split_go fuel' sep post
      end
  end.

(** [s.split(sep)] with a string separator and no limit: with an empty
    separator the code units; otherwise the pieces between the successive
    occurrences of [sep], found from left to right. *)
Definition split (s sep : string) : list string :=
  match sep with
  | "" => chars s
  | _ => split_go (len s) sep s
  end.

(** The replacement patterns of [String.prototype.replace] (GetSubstitution)
    when the pattern is a string, so that there are no captures:
    [$$] is a dollar, [$&] the matched text, [$`] the text before the match
    and [$'] the text after it; any other dollar stands for itself. *)
Fixpoint get_substitution (matched pre post template : string) : string :=
  match template with
  | "" => ""
  | String a t =>
      if Ascii.eqb a "$" then
        match t with
        | String b t' =>
            if Ascii.eqb b "$" then String "$" (get_substitution matched pre post t')
            else if Ascii.eqb b "&" then matched +:+ get_substitution matched pre post t'
            else if Ascii.eqb b "`" then pre +:+ get_substitution matched pre post t'
            else if Ascii.eqb b "'" then post +:+ get_substitution matched pre post t'
            else String a (get_substitution matched pre post t)
        | "" => String a ""
        end
      else String a (get_substitution matched pre post t)
  end.

(** [s.replace(pat, template)] with a string pattern: only the first
    occurrence is replaced. *)
Definition replace (s pat template : string) : string :=
  match find_first pat s with
  | None => s
  | Some (pre, post) => pre +:+ get_substitution pat pre post template +:+ post
  end.

(** White space and line terminators, as [\s] and [trim] see them. *)
Definition is_space (a : ascii) : bool :=
  let n := nat_of_ascii a in
  ((n =? 9) || (n =? 10) || (n =? 11) || (n =? 12) || (n =? 13) || (n =? 32)
   || (n =? 160))%nat.

(** [\w] *)
Definition is_word (a : ascii) : bool :=
  let n := nat_of_ascii a in
  (((48 <=? n) && (n <=? 57)) || ((65 <=? n) && (n <=? 90))
   || ((97 <=? n) && (n <=? 122)) || (n =? 95))%nat.

Fixpoint trim_start (s : string) : string :=
  match s with
  | String a s' => if is_space a then trim_start s' else s
  | "" => ""
  end.

Fixpoint trim_end (s : string) : string :=
  match s with
  | "" => ""
  | String a s' =>
      match trim_end s' with
      | "" => if is_space a then "" else String a ""
      | t => String a t
      end
  end.

(** [s.trim()] *)
Definition trim (s : string) : string := trim_end (trim_start s).

(** Truthiness of a string. *)
Definition truthy (s : string) : bool :=
  match s with "" => false | _ => true end.

(** Truthiness of a value of type [string | undefined]. *)
Definition truthy_opt (o : option string) : bool :=
  match o with Some s => truthy s | None => false end.

(** A value of type [string | undefined] inside a template literal or on
    the right of [+=]. *)
Definition to_string (o : option string) : string :=
  match o with Some s => s | None => "undefined" end.

End Js.

(** ** Regular expressions *)

Module Regex.

Inductive re :=
  | Eps
  | Chr (p : ascii -> bool)     (* one character of a class *)
  | Seq (r1 r2 : re)
  | Alt (r1 r2 : re)            (* r1|r2 *)
  | Star (r : re)               (* r*, greedy *)
  | Bol                         (* ^, without the m flag *)
  | Eol                         (* $, without the m flag *)
  | Ahead (r : re)              (* (?=r) *)
  | Grp (n : nat) (r : re).     (* the n-th capturing group *)

Definition Plus (r : re) : re := Seq r (Star r).
Definition Opt (r : re) : re := Alt r Eps.

Definition lit (c : ascii) : re := Chr (Ascii.eqb c).
Definition one_of (cs : string) : re :=
  Chr (fun a => existsb (Ascii.eqb a) (list_ascii_of_string cs)).
Definition none_of (cs : string) : re :=
  Chr (fun a => negb (existsb (Ascii.eqb a) (list_ascii_of_string cs))).

(** The captures set so far, the latest first. *)
Definition caps := list (nat * string).

Definition capture (n : nat) (c : caps) : option string :=
  snd <$> List.find (fun e => (fst e =? n)%nat) c.

(** [rmatch n0 r t c k] matches [r] at the suffix [t] of an input of length
    [n0], then runs the continuation [k] on what is left; a failure of the
    continuation makes the matcher try its next choice. *)
Fixpoint rmatch (n0 : nat) (r : re) {A : Type} (t : string) (c : caps)
    (k : string -> caps -> option A) : option A :=
  match r with
  | Eps => k t c
  | Chr p =>
      match t with
      | String a t' => if p a then k t' c else None
      | "" => None
      end
  | Seq r1 r2 => rmatch n0 r1 t c (fun t' c' => rmatch n0 r2 t' c' k)
  | Alt r1 r2 =>
      match rmatch n0 r1 t c k with
      | Some x => Some x
      | None => rmatch n0 r2 t c k
      end
  | Star r1 =>
      (fix loop (fuel : nat) (t : string) (c : caps) : option A :=
         match fuel with
         | 0 => k t c
         | S fuel' =>
             match rmatch n0 r1 t c (fun t' c' =>
                     if (Js.len t' <? Js.len t)%nat then loop fuel' t' c' else None) with
             | Some x => Some x
             | None => k t c
             end
         end) (Js.len t) t c
  | Bol => if (Js.len t =? n0)%nat then k t c else None
  | Eol => match t with "" => k t c | _ => None end
  | Ahead r1 =>
      match rmatch n0 r1 t c (fun _ c' => Some c') with
      | Some c' => k t c'
      | None => None
      end
  | Grp n r1 =>
      rmatch n0 r1 t c (fun t' c' =>
        k t' ((n, Js.take (Js.len t - Js.len t') t) :: c'))
  end.

(** One attempt at the position of the suffix [t]: what is left after the
    match, and the captures. *)
Definition exec_at (r : re) (n0 : nat) (t : string) : option (string * caps) :=
  rmatch n0 r t [] (fun t' c => Some (t', c)).

(** [re.test(s)], also [s.match(re) !== null]: some position matches. *)
Fixpoint test_from (r : re) (n0 : nat) (t : string) : bool :=
  match exec_at r n0 t with
  | Some _ => true
  | None =>
      match t with
      | "" => false
      | String _ t' => test_from r n0 t'
      end
  end.

Definition test (r : re) (s : string) : bool := test_from r (Js.len s) s.

(** [s.replace(re, f)] for a regular expression with the g flag: every
    match, found from left to right, is replaced by [f] of the matched text
    and the captures; after an empty match the search moves on by one
    character. *)
Fixpoint replace_go (fuel : nat) (r : re) (f : string -> caps -> string)
    (n0 : nat) (t : string) : string :=
  match fuel with
  | 0 => t
  | S fuel' =>
      let skip :=
        match t with
        | "" => ""
        | String a t1 => String a (replace_go fuel' r f n0 t1)
        end in
      match exec_at r n0 t with
      | Some (t', c) =>
          if (Js.len t' <? Js.len t)%nat
          then f (Js.take (Js.len t - Js.len t') t) c +:+ replace_go fuel' r f n0 t'
          else f "" c +:+ skip
      | None => skip
      end
  end.

Definition replace_all (r : re) (f : string -> caps -> string) (s : string) : string :=
  replace_go (S (Js.len s)) r f (Js.len s) s.

(** [s.split(re)]: the pieces between the matches and, after each piece,
    the capture of every group in [groups] ([None] when the group did not
    take part in the match). [tp] is the suffix where the current piece
    starts and [tq] the suffix where the next match is tried. *)
Fixpoint split_go (fuel : nat) (r : re) (groups : list nat) (n0 : nat)
    (tp tq : string) : list (option string) :=
  match fuel with
  | 0 => [Some tp]
  | S fuel' =>
      match tq with
      | "" => [Some tp]
      | String _ tq1 =>
          match exec_at r n0 tq with
          | None => split_go fuel' r groups n0 tp tq1
          | Some (te, c) =>
              if (Js.len te =? Js.len tp)%nat then split_go fuel' r groups n0 tp tq1
              else
                Some (Js.take (Js.len tp - Js.len tq) tp)
                :: map (fun g => capture g c) groups
                ++ split_go fuel' r groups n0 te te
          end
      end
  end.

Definition split (r : re) (groups : list nat) (s : string) : list (option string) :=
  match s with
  | "" => match exec_at r 0 "" with Some _ => [] | None => [Some ""] end
  | _ => split_go (S (2 * Js.len s)) r groups (Js.len s) s s
  end.

End Regex.

(** ** Errors *)

Inductive outcome (A : Type) :=
  | Ok (a : A)
  | TypeError.
Arguments Ok {A} a.
Arguments TypeError {A}.

#[global] Instance outcome_bind : MBind outcome := fun A B f x =>
  match x with
  | Ok a => f a
  | TypeError => TypeError
  end.

(** ** Translation data *)

Set Warnings "-register-all".

(** A value of the translation data, which [JSON.parse] produced. *)
Inductive jsval :=
  | JNull
  | JBool (b : bool)
  | JNum (n : Z)
  | JStr (s : string)
  | JArr (l : list jsval)
  | JObj (m : gmap string jsval).

(** Truthiness, for the test [acc && ...]. *)
Definition truthy_val (v : jsval) : bool :=
  match v with
  | JNull => false
  | JBool b => b
  | JNum n => negb (n =? 0)%Z
  | JStr s => Js.truthy s
  | JArr _ | JObj _ => true
  end.

Definition is_digit (a : ascii) : bool :=
  let n := nat_of_ascii a in ((48 <=? n) && (n <=? 57))%nat.

Fixpoint digits_value (acc : nat) (s : string) : option nat :=
  match s with
  | "" => Some acc
  | String a s' =>
      if is_digit a then digits_value (10 * acc + (nat_of_ascii a - 48)) s'
      else None
  end.

(** The index that a property name denotes: a decimal numeral without a
    superfluous leading zero. *)
Definition canonical_index (k : string) : option nat :=
  match k with
  | "" => None
  | String a "" => digits_value 0 k
  | String a _ => if Ascii.eqb a "0" then None else digits_value 0 k
  end.

(** The own properties of [v] under the name [k]: the entries of an object,
    the elements and the length of an array, the code units and the length
    of a string. [None]: [v] has no own property of that name. *)
Definition own_prop (v : jsval) (k : string) : option jsval :=
  match v with
  | JObj m => m !! k
  | JArr l =>
      if String.eqb k "length" then Some (JNum (Z.of_nat (length l)))
      else match canonical_index k with
           | Some i => l !! i
           | None => None
           end
  | JStr s =>
      if String.eqb k "length" then Some (JNum (Z.of_nat (Js.len s)))
      else match canonical_index k with
           | Some i => (fun a => JStr (String a "")) <$> String.get i s
           | None => None
           end
  | _ => None
  end.

(** ** The runtime *)

(** What a property access can reach from the translation data: a value of
    the data, or a built-in object of the runtime (a function such as
    [Object], a prototype), which the data does not hold but which a value
    inherits members from. A built-in object is known by a name. *)
Inductive node :=
  | Data (v : jsval)
  | Host (name : string).

(** The built-in objects are no code of the repository: the runtime is a
    parameter. [rt n k] is the result of [n[k]] when [k] is no own property
    of the data value [n], or when [n] is a built-in object: the member
    found along the prototype chain, [Ok None] for [undefined], and
    [TypeError] for an accessor that throws (as [caller] does on a
    function). A runtime answers the same at every access. *)
Definition Runtime : Type := node -> string -> outcome (option node).

Definition truthy_node (n : node) : bool :=
  match n with
  | Data v => truthy_val v
  | Host _ => true
  end.

(** [n[k]]: an own property of a data value comes first, then the members
    that the runtime finds. *)
Definition get_prop (rt : Runtime) (n : node) (k : string) : outcome (option node) :=
  match n with
  | Data v =>
      match own_prop v k with
      | Some w => Ok (Some (Data w))
      | None => rt n k
      end
  | Host _ => rt n k
  end.

(** [translation[lang]], the data of a language in the dataset, which is an
    object as every other. *)
Definition langData (rt : Runtime) (translation : gmap string jsval) (lang : string)
    : outcome (option node) :=
  get_prop rt (Data (JObj translation)) lang.

(** ** tools/logger *)

(** Modelled from the spec: [log] of [tools/logger], a module that the
    plugin imports and whose source is missing. The specification has every
    notice of the pipeline reported as a log line; a call of [log] adds its
    message at the end of the trace of the run. *)
Definition log (trace : list string) (message : string) : list string :=
  trace ++ [message].

(** ** tools/inline/plugin.ts *)

Module Plugin.
Import Regex.

(** The options that [inline] reads. *)
Record Options := {
  supportedLangs : list string;
  defaultLang : string;
  keySeparator : string;
  keyValueSeparator : string;
}.

Definition dquote : ascii := "034"%char.

(** The three quote characters. *)
Definition quotes : string := String dquote "'`".

(** [quoteValue]: the value in backticks. *)
Definition quoteValue (value : string) : string := "`" +:+ value +:+ "`".

(** [interpolateParam] *)
Definition interpolateParam (param : string) : string := "${" +:+ param +:+ "}".

(** [/(^(\x22|'|`))|(\x22|'|`)$/g], with \x22 for the double quote. *)
Definition trimQuotesRe : re :=
  Alt (Grp 1 (Seq Bol (Grp 2 (one_of quotes))))
      (Seq (Grp 3 (one_of quotes)) Eol).

(** [trimQuotes] *)
Definition trimQuotes (value : string) : string :=
  replace_all trimQuotesRe (fun _ _ => "") value.

(** The regular expression of [getParams], which has the flags g and s:
    group 1, a non-empty run of [plain item plain], or else a comma. Below
    \x22 is the double quote.
    - [plain] is [[^,'\x22`]*];
    - [item] is one of [\x22(?:[^\x22])*\x22], ['(?:[^'])*'],
      ['(?:[^`])*`] and [,(?:[^{]*\})], in this order.
    The third item opens with a single quote and closes with a backtick, as
    in the source. *)
Definition getParamsRe : re :=
  let plain := Star (none_of (String "," quotes)) in
  let double := Seq (lit dquote) (Seq (Star (none_of (String dquote ""))) (lit dquote)) in
  let single := Seq (lit "'") (Seq (Star (none_of "'")) (lit "'")) in
  let back := Seq (lit "'") (Seq (Star (none_of "`")) (lit "`")) in
  let braces := Seq (lit ",") (Seq (Star (none_of "{")) (lit "}")) in
  Alt (Grp 1 (Plus (Seq plain (Seq (Alt double (Alt single (Alt back braces))) plain))))
      (lit ",").

(** [/\s+/g] *)
Definition spacesRe : re := Plus (Chr Js.is_space).

(** [filter(Boolean)] on the result of a split: the empty pieces and the
    captures that are [undefined] go. *)
Definition filterBoolean (l : list (option string)) : list string :=
  omap (fun o => match o with
                 | Some s => if Js.truthy s then Some s else None
                 | None => None
                 end) l.

(** [getParams] *)
Definition getParams (args : string) : list string :=
  let params := filterBoolean (Regex.split getParamsRe [1] args) in
  map (fun x => Js.trim (replace_all spacesRe (fun _ _ => " ") x)) params.

(** [/(^({))|(})$/g] *)
Definition bracketsRe : re :=
  Alt (Grp 1 (Seq Bol (Grp 2 (lit "{")))) (Seq (Grp 3 (lit "}")) Eol).

(** [/{{\s?(KEY)\s?}}/g], where KEY is [[^{}\s]*]. *)
Definition placeholderRe : re :=
  Seq (lit "{") (Seq (lit "{") (Seq (Opt (Chr Js.is_space))
    (Seq (Grp 1 (Star (Chr (fun a => negb (Ascii.eqb a "{" || Ascii.eqb a "}" || Js.is_space a)))))
      (Seq (Opt (Chr Js.is_space)) (Seq (lit "}") (lit "}")))))).

(** The loop body of [handleParams] for one [param]. *)
Definition handleParam (value param : string) : string :=
  match map Js.trim (Js.split param ":") with
  | [name; expr] =>
      replace_all placeholderRe
        (fun substring c =>
           match capture 1 c with
           | Some parsedKey =>
               if String.eqb parsedKey name then interpolateParam expr else substring
           | None => substring
           end) value
  | _ => value
  end.

(** [handleParams]; the result type is [string | undefined] as declared. *)
Definition handleParams (value args : string) : option string :=
  let args := replace_all bracketsRe (fun _ _ => "") args in
  let params := getParams args in
  let value := fold_left handleParam params value in
  Some (quoteValue value).

(** The callback of the [reduce] in [getValue],
    [(acc && acc[cur] != null) ? acc[cur] : null]; [None] stands for both
    [null] and [undefined]. *)
Definition walkStep (rt : Runtime) (acc : option node) (cur : string)
    : outcome (option node) :=
  match acc with
  | Some n =>
      if truthy_node n then
        v ← get_prop rt n cur;
        match v with
        | Some (Data JNull) | None => Ok None
        | Some w => Ok (Some w)
        end
      else Ok None
  | None => Ok None
  end.

(** [segments.reduce(..., data)]; an exception ends the loop. *)
Definition walkFrom (rt : Runtime) (segments : list string) (data : option node)
    : outcome (option node) :=
  fold_left (fun acc cur => a ← acc; walkStep rt a cur) segments (Ok data).

(** [key.split(keySeparator).reduce(..., data)] *)
Definition walk (rt : Runtime) (key : string) (data : option node) (keySeparator : string)
    : outcome (option node) :=
  walkFrom rt (Js.split key keySeparator) data.

(** [getValue]; [data] is [undefined] when the dataset has no entry for the
    language. *)
Definition getValue (rt : Runtime) (key : string) (data : option node)
    (args : option string) (keySeparator : string) : outcome (option string) :=
  value ← walk rt key data keySeparator;
  match value with
  | Some (Data (JStr value)) =>
      match args with
      | Some a => if Js.truthy a then Ok (handleParams value a) else Ok (Some (quoteValue value))
      | None => Ok (Some (quoteValue value))
      end
  | _ => Ok None
  end.

(** [getKey]; the result is [undefined] when the split has no first piece. *)
Definition getKey (param keyValueSeparator : string) : option string :=
  let key := trimQuotes param in
  head (Js.split key keyValueSeparator).

(** [multilingual] *)
Definition multilingual (param : option string) (supportedLangs : list string) : option string :=
  match param with
  | Some p =>
      if Js.truthy p then
        let lang := trimQuotes p in
        List.find (fun x => String.eqb x lang) supportedLangs
      else None
  | None => None
  end.

(** [/(\w+(?=:|\s+:))/g] *)
Definition paramNamesRe : re :=
  Grp 1 (Seq (Plus (Chr Js.is_word))
             (Ahead (Alt (lit ":") (Seq (Plus (Chr Js.is_space)) (lit ":"))))).

Section Inline.

(** The constants that the plugin imports from [./constants]: the name of
    the global variable that holds the language, and the two regular
    expressions, each through the one call that [inline] makes with it,
    [code.match(translateFnMatch)] and
    [originalFn.match(translateFnSignatureMatch)?.[0]]. Their values are
    left open. *)
Variable globalLang : string.
Variable translateFnMatch : string -> option (list string).
Variable translateFnSignatureMatch : string -> option string.

(** [buildLine] *)
Definition buildLine (values : gmap string string) (supportedLangs : list string)
    (defaultLang : string) : string :=
  let translatedLine :=
    fold_left
      (fun translatedLine lang =>
         translatedLine +:+ globalLang +:+ " === " +:+ quoteValue lang +:+ " && "
         +:+ Js.to_string (values !! lang) +:+ " || ")
      (filter (fun x => x ≠ defaultLang) supportedLangs) "" in
  translatedLine +:+ Js.to_string (values !! defaultLang).

Variable rt : Runtime.
Variable translation : gmap string jsval.
Variable opts : Options.

(** [inline], lines 107-111: the test that skips a call with dynamic
    params. *)
Definition dynamicParams (params : list string) : bool :=
  match params !! 1 with
  | Some p1 => Js.truthy p1 && negb (Regex.test paramNamesRe p1)
  | None => false
  end.

(** [inline], lines 113-125: the languages of one call and its default
    language. *)
Definition callLangs (params : list string) : list string * string :=
  match multilingual (params !! 3) opts.(supportedLangs) with
  | Some optionalLang =>
      if Js.truthy optionalLang then ([optionalLang], optionalLang)
      else (opts.(supportedLangs), opts.(defaultLang))
  | None => (opts.(supportedLangs), opts.(defaultLang))
  end.

(** [getValue(key, translation[lang], params[1], opts.keySeparator)], the
    call that [inline] makes for the default language and for every other
    language. *)
Definition valueIn (key : string) (params : list string) (lang : string)
    : outcome (option string) :=
  data ← langData rt translation lang;
  getValue rt key data (params !! 1) opts.(keySeparator).

(** [inline], lines 142-147: the body of the loop over the languages other
    than the default one, on the map of values and the trace. *)
Definition otherValue (key : string) (params : list string)
    (st : gmap string string * list string) (lang : string)
    : outcome (gmap string string * list string) :=
  let '(values, trace) := st in
  let missing := (values, log trace (lang +:+ " - missing value for key: " +:+ key)) in
  value ← valueIn key params lang;
  match value with
  | Some value => if Js.truthy value then Ok (<[lang := value]> values, trace) else Ok missing
  | None => Ok missing
  end.

(** [inline], lines 141-148: the loop itself; an exception ends it. *)
Definition otherValues (key : string) (params : list string) (langs : list string)
    (defaultLang : string) (st : gmap string string * list string)
    : outcome (gmap string string * list string) :=
  fold_left (fun acc lang => st ← acc; otherValue key params st lang)
    (filter (fun x => x ≠ defaultLang) langs) (Ok st).

(** [inline], lines 103-154: the body of the loop over the matches once the
    signature [args] of the call [originalFn] is known and not empty.
    [getKey] on a first parameter that is [undefined], and [getValue] on a
    key that is [undefined], raise a [TypeError]; so does [getValue] when
    the walk of the key reaches an accessor that throws. *)
Definition inlineArgs (code : string) (trace : list string) (originalFn args : string)
    : outcome (string * list string) :=
  let params := getParams args in
  if dynamicParams params then Ok (code, trace)
  else
    let '(langs, defaultLang) := callLangs params in
    match params !! 0 with
    | None => TypeError
    | Some param0 =>
        match getKey param0 opts.(keyValueSeparator) with
        | None => TypeError
        | Some key =>
            let skip :=
              Ok (code, log trace (defaultLang +:+ " - missing value for key: "
                                   +:+ key +:+ " - Skip")) in
            defaultValue ← valueIn key params defaultLang;
            match defaultValue with
            | None => skip
            | Some defaultValue =>
                if Js.truthy defaultValue then
                  '(values, trace) ←
                    otherValues key params langs defaultLang
                      (<[defaultLang := defaultValue]> ∅, trace);
                  let line := buildLine values langs defaultLang in
                  Ok (Js.replace code originalFn line, trace)
                else skip
            end
        end
    end.

(** [inline], lines 98-156: one turn of the loop over the matches. *)
Definition inlineCall (code : string) (trace : list string) (originalFn : string)
    : outcome (string * list string) :=
  match translateFnSignatureMatch originalFn with
  | Some args =>
      if Js.truthy args then inlineArgs code trace originalFn args
      else Ok (code, trace)
  | None => Ok (code, trace)
  end.

(** [inline]: the new code ([None] is [null]) and the trace. *)
Definition inline (code : string) : outcome (option string * list string) :=
  match translateFnMatch code with
  | None => Ok (None, [])
  | Some matches =>
      st ← fold_left
             (fun acc originalFn =>
                st ← acc; inlineCall (fst st) (snd st) originalFn)
             matches (Ok (code, []));
      Ok (Some (fst st), snd st)
  end.

End Inline.

End Plugin.

(** ** tools/extract/index.ts *)

Module Extract.

(** The destructuring [[key, defaultValue] = key.split(keyValueSeparator)]
    in the loop over the extracted keys: the first two pieces, each
    [undefined] when the split has no such piece. *)
Definition keyAndDefault (key keyValueSeparator : string) : option string * option string :=
  let parts := Js.split key keyValueSeparator in
  (parts !! 0, parts !! 1).

(** [defaultValue || ''], the value that [deepSet] receives. *)
Definition seedValue (defaultValue : option string) : string :=
  match defaultValue with
  | Some d => if Js.truthy d then d else ""
  | None => ""
  end.

End Extract.

(** ** Vocabulary of the statements *)

(** The concatenation of a list of strings. *)
Definition concatStrings (l : list string) : string := foldr String.append "" l.

(** The first and the last character of [s] are backticks (so [s] has at
    least two characters). *)
Definition backquoted (s : string) : Prop :=
  String.get 0 s = Some "`"%char
  ∧ String.get (Js.len s - 1) s = Some "`"%char
  ∧ (2 ≤ Js.len s)%nat.

(** One term of the fallback chain as [buildLine] writes it: the language
    between backticks. *)
Definition chainTerm (globalLang lang : string) (value : option string) : string :=
  globalLang +:+ " === `" +:+ lang +:+ "` && " +:+ Js.to_string value +:+ " || ".

(** The fallback chain: a term for every language other than the default
    one, in the order of the list, then the value of the default language. *)
Definition chain (globalLang : string) (value : string -> option string)
    (langs : list string) (defaultLang : string) : string :=
  concatStrings (map (fun lang => chainTerm globalLang lang (value lang))
                     (filter (fun x => x ≠ defaultLang) langs))
  +:+ Js.to_string (value defaultLang).

(** The chain in the words of the specification, with the language between
    single quotes. *)
Definition chainSingleQuoted (globalLang : string) (value : string -> option string)
    (langs : list string) (defaultLang : string) : string :=
  concatStrings (map (fun lang =>
                        globalLang +:+ " === '" +:+ lang +:+ "' && "
                        +:+ Js.to_string (value lang) +:+ " || ")
                     (filter (fun x => x ≠ defaultLang) langs))
  +:+ Js.to_string (value defaultLang).

(** The chain in the words of the specification, when a language without a
    value is left out of it. *)
Definition chainOmittingMissing (globalLang : string) (value : string -> option string)
    (langs : list string) (defaultLang : string) : string :=
  concatStrings (omap (fun lang =>
                         match value lang with
                         | Some v => Some (chainTerm globalLang lang (Some v))
                         | None => None
                         end)
                      (filter (fun x => x ≠ defaultLang) langs))
  +:+ Js.to_string (value defaultLang).

(** The notices of the languages without a value, in the order of the list. *)
Definition missingNotices (key : string) (value : string -> option string)
    (langs : list string) (defaultLang : string) : list string :=
  map (fun lang => lang +:+ " - missing value for key: " +:+ key)
      (filter (fun lang => value lang = None)
              (filter (fun x => x ≠ defaultLang) langs)).

(** [rewritesFirst resolved matches c c']: [c'] comes from [c] by one step
    for each text of [matches], in their order. The step of a text that
    does not satisfy [resolved], or that does not occur in the code as it
    then stands, leaves the code as it is. The step of a text [fn] that
    satisfies [resolved] and occurs in the code, first after [pre] and
    before [post], puts a text [line] in the place of that first occurrence
    and keeps [pre] and [post]. *)
Inductive rewritesFirst (resolved : string -> Prop)
    : list string -> string -> string -> Prop :=
  | rewritesFirst_nil c : rewritesFirst resolved [] c c
  | rewritesFirst_skip fn l c c' :
      ¬ resolved fn ∨ Js.find_first fn c = None ->
      rewritesFirst resolved l c c' ->
      rewritesFirst resolved (fn :: l) c c'
  | rewritesFirst_step fn l c pre post line c' :
      resolved fn ->
      Js.find_first fn c = Some (pre, post) ->
      rewritesFirst resolved l (pre +:+ line +:+ post) c' ->
      rewritesFirst resolved (fn :: l) c c'.

(** One of the three quote characters. *)
Definition is_quote (a : ascii) : bool :=
  existsb (Ascii.eqb a) (list_ascii_of_string Plugin.quotes).

Section Classification.

Variable translateFnSignatureMatch : string -> option string.
Variable rt : Runtime.
Variable translation : gmap string jsval.
Variable opts : Plugin.Options.

(** A call that [inline] resolves: it has a signature, its second param is
    absent or shows a property name, it has a key, and the key has a value
    in the default language of the call. *)
Definition resolvedCall (originalFn : string) : Prop :=
  ∃ args param0 key defaultValue,
    translateFnSignatureMatch originalFn = Some args
    ∧ Js.truthy args = true
    ∧ Plugin.dynamicParams (Plugin.getParams args) = false
    ∧ Plugin.getParams args !! 0 = Some param0
    ∧ Plugin.getKey param0 opts.(Plugin.keyValueSeparator) = Some key
    ∧ Plugin.valueIn rt translation opts key (Plugin.getParams args)
        (Plugin.callLangs opts (Plugin.getParams args)).2
      = Ok (Some defaultValue).

End Classification.

(** ** Data of the examples *)

Module Examples.
Import Plugin.

(** The argument list of the specification, with its double quotes: the
    key between double quotes, then [{ a: 'x, y', b: 2 }]. *)
Definition specArgs : string :=
  String dquote ("key" +:+ String dquote ", { a: 'x, y', b: 2 }").

Definition specParams : list string :=
  [String dquote ("key" +:+ String dquote ""); "{ a: 'x, y', b: 2 }"].

(** [lang => [lang, tree]] for the two languages of the specification. *)
Definition dataset (it en : jsval) : gmap string jsval :=
  <["it-IT" := it]> (<["en-US" := en]> ∅).

Definition options : Options :=
  {| supportedLangs := ["it-IT"; "en-US"];
     defaultLang := "en-US";
     keySeparator := ".";
     keyValueSeparator := "@@" |}.

(** [{ KEY1: 'key1', SUBKEY1: { AA: 'aa' } }], the tree of the tests. *)
Definition testTree : jsval :=
  JObj (<["KEY1" := JStr "key1"]> (<["SUBKEY1" := JObj {[ "AA" := JStr "aa" ]}]> ∅)).

(** [{ k: 'Hello' }], [{ k: 'Ciao' }], [{ k: '' }] and [{}]. *)
Definition hello : jsval := JObj {[ "k" := JStr "Hello" ]}.
Definition ciao : jsval := JObj {[ "k" := JStr "Ciao" ]}.
Definition blank : jsval := JObj {[ "k" := JStr "" ]}.
Definition empty : jsval := JObj ∅.

(** The map of values of the example of the specification. *)
Definition specValues : gmap string string :=
  <["en-US" := "`Hello`"]> (<["it-IT" := "`Ciao`"]> ∅).

(** A part of a standard runtime, for the examples: a value inherits the
    member [constructor], a built-in function, which has the members [name]
    and [length]; the accessors [caller] and [arguments] of a function
    throw, and so does every access to [null]. The members left out are
    absent in this runtime; the theorems hold for every runtime. *)
Definition runtime : Runtime := fun n k =>
  match n with
  | Data JNull => TypeError
  | Data v =>
      if String.eqb k "constructor" then
        Ok (Some (Host (match v with
                        | JArr _ => "Array"
                        | JStr _ => "String"
                        | JNum _ => "Number"
                        | JBool _ => "Boolean"
                        | _ => "Object"
                        end)))
      else Ok None
  | Host name =>
      if String.eqb k "name" then Ok (Some (Data (JStr name)))
      else if String.eqb k "length" then Ok (Some (Data (JNum 1)))
      else if String.eqb k "caller" || String.eqb k "arguments" then TypeError
      else Ok None
  end.

(** What [getValue] returns for the key [k] in the dataset with [{}] for
    [it-IT] and with [en] for [en-US], when [en] gives [k] the value [v]. *)
Definition onlyEnglish (v : string) : string -> option string :=
  fun lang => if String.eqb lang "en-US" then Some (quoteValue v) else None.

(** What [getValue] returns for the key [k] when [it-IT] gives it the
    value [it] and [en-US] the value [en]. *)
Definition bothValues (it en : string) : string -> option string :=
  fun lang =>
    if String.eqb lang "it-IT" then Some (quoteValue it)
    else if String.eqb lang "en-US" then Some (quoteValue en)
    else None.

(** A stand-in for [code.match(translateFnMatch)] on a code whose matches
    are known. *)
Definition matcher (matches : list string) : string -> option (list string) :=
  fun _ => Some matches.

(** A stand-in for [translateFnSignatureMatch] on the calls of
    [$translate]: the text between [$translate(] and the last character of
    the call. *)
Definition callSignature (originalFn : string) : option string :=
  match Js.strip_prefix "$translate(" originalFn with
  | Some rest => Some (Js.take (Js.len rest - 1) rest)
  | None => None
  end.

(** A stand-in for [translateFnSignatureMatch] on a call of one known
    signature. *)
Definition signature (args : string) : string -> option string := fun _ => Some args.

End Examples.


(** ** Further vocabulary *)

(** [s] without its last character, when that is a quote character. *)
Fixpoint stripLastQuote (s : string) : string :=
  match s with
  | "" => ""
  | String a "" => if is_quote a then "" else s
  | String a t => String a (stripLastQuote t)
  end.

(** [s] without one quote character at its start, and then without one
    quote character at the end of what is left. *)
Definition stripQuotes (s : string) : string :=
  match s with
  | "" => ""
  | String a t => if is_quote a then stripLastQuote t else stripLastQuote s
  end.

(** [pat] occurs in [s]. *)
Definition occursIn (pat s : string) : Prop := is_Some (Js.find_first pat s).

(** The loop of [Regex.rmatch] on [Star r], with a name: [m] is the matcher
    of [r] and [k] the continuation of the repetition. *)
Section StarLoop.

Context {A : Type}.
Variable m : string -> Regex.caps -> (string -> Regex.caps -> option A) -> option A.
Variable k : string -> Regex.caps -> option A.

Fixpoint starLoop (fuel : nat) (t : string) (c : Regex.caps) : option A :=
  match fuel with
  | 0 => k t c
  | S fuel' =>
      match m t c (fun t' c' =>
              if (Js.len t' <? Js.len t)%nat then starLoop fuel' t' c' else None) with
      | Some x => Some x
      | None => k t c
      end
  end.

End StarLoop.

(** Every character of [s] satisfies [p]. *)
Fixpoint allChars (p : ascii -> bool) (s : string) : bool :=
  match s with
  | "" => true
  | String a t => p a && allChars p t
  end.

(** A character other than [c]. *)
Definition isNot (c : ascii) (a : ascii) : bool := negb (Ascii.eqb a c).

(** A character that the name of a placeholder may have: the class
    [[^{}\s]] of [Plugin.placeholderRe]. *)
Definition placeholderChar (a : ascii) : bool :=
  negb (Ascii.eqb a "{" || Ascii.eqb a "}" || Js.is_space a).

(** [segs.join(sep)] *)
Fixpoint joinWith (sep : string) (segs : list string) : string :=
  match segs with
  | [] => ""
  | s :: rest =>
      match rest with
      | [] => s
      | _ => s +:+ sep +:+ joinWith sep rest
      end
  end.

(** The tree with one path, [segs], which leads to [leaf]. *)
Fixpoint nest (segs : list string) (leaf : jsval) : jsval :=
  match segs with
  | [] => leaf
  | k :: rest => JObj {[ k := nest rest leaf ]}
  end.

(** A replacement text without a replacement pattern: no dollar of it is
    followed by a dollar, an ampersand, a backtick or a single quote. *)
Fixpoint plainTemplate (template : string) : bool :=
  match template with
  | "" => true
  | String a t =>
      (if Ascii.eqb a "$" then
         match t with
         | String b _ =>
             negb (Ascii.eqb b "$" || Ascii.eqb b "&" || Ascii.eqb b "`" || Ascii.eqb b "'")
         | "" => true
         end
       else true) && plainTemplate t
  end.

(** The terms of the fallback chain, without the value of the default
    language that ends it. *)
Definition chainTerms (globalLang : string) (value : string -> option string)
    (langs : list string) (defaultLang : string) : string :=
  concatStrings (map (fun lang => chainTerm globalLang lang (value lang))
                     (filter (fun x => x ≠ defaultLang) langs)).

(** ** tools/inline/plugin.ts: the translation data of the build *)

Module Build.

(** [qwikSpeakInline], line 26:
    [Object.fromEntries(opts.supportedLangs.map(value => [value, {}]))]. *)
Definition initialTranslation (supportedLangs : list string) : gmap string jsval :=
  fold_left (fun translation lang => <[lang := JObj ∅]> translation) supportedLangs ∅.

(** The spread [...v] in an object literal: the own enumerable properties
    of [v], which are the entries of an object, the elements of an array
    under their indices and the code units of a string under theirs; a
    value that is [undefined], [null], a boolean or a number has none. *)
Definition spread (v : option jsval) : gmap string jsval :=
  match v with
  | Some (JObj m) => m
  | Some (JArr l) => list_to_map (imap (fun i x => (pretty i, x)) l)
  | Some (JStr s) => list_to_map (imap (fun i x => (pretty i, JStr x)) (Js.chars s))
  | _ => ∅
  end.

Section Load.

(** [JSON.parse]; [None] stands for the [SyntaxError] that it throws. *)
Variable JSONparse : string -> option jsval.

(** [parseJson], lines 84-87: [{ ...target, ...JSON.parse(source) }]. *)
Definition parseJson (target : gmap string jsval) (source : string)
    : option (gmap string jsval) :=
  v ← JSONparse source; Some (spread (Some v) ∪ target).

(** [buildStart], lines 46-59: the data of the files of one language, [ext]
    being the extension of the first file. *)
Definition loadData (ext : string) (sources : list string) : option (gmap string jsval) :=
  fold_left
    (fun data source =>
       d ← data;
       if Js.truthy source then
         if String.eqb ext ".json" then parseJson d source else Some d
       else Some d)
    sources (Some ∅).

End Load.

End Build.

(** ** tools/extract/index.ts: the scan of the source files *)

Module Scan.
Import Regex.

(** A run of literal characters. *)
Fixpoint lits (s : string) : re :=
  match s with
  | "" => Eps
  | String a t => Seq (lit a) (lits t)
  end.

(** [readSourceFiles], line 45: [/\.js|\.ts|\.jsx|\.tsx/]. *)
Definition sourceExtRe : re :=
  Alt (lits ".js") (Alt (lits ".ts") (Alt (lits ".jsx") (lits ".tsx"))).

(** [readSourceFiles], line 45: the test on the extension of a file that is
    not a directory. *)
Definition isSourceExt (ext : string) : bool := Regex.test sourceExtRe ext.

(** The dot of a regular expression without the s flag: any character but
    a line terminator. *)
Definition notLineTerminator (a : ascii) : bool :=
  let n := nat_of_ascii a in negb ((n =? 10) || (n =? 13))%nat.

(** [parseSourceFile], line 72: [/\${.*}/]. *)
Definition templateRe : re :=
  Seq (lit "$") (Seq (lit "{") (Seq (Star (Chr notLineTerminator)) (lit "}"))).

(** An argument of a call expression, as [parseSequenceExpressions] of
    [tools/core/parser] gives it: the two fields that [parseSourceFile]
    reads. *)
Record Argument := {
  argType : string;
  argValue : option string;
}.

(** [args[i]?.type === type] *)
Definition typeAt (args : list Argument) (i : nat) (type : string) : bool :=
  match args !! i with
  | Some a => String.eqb (argType a) type
  | None => false
  end.

(** [stats.set(name, (stats.get(name) ?? 0) + 1)] *)
Definition bump (stats : gmap string nat) (name : string) : gmap string nat :=
  <[name := default 0 (stats !! name) + 1]> stats.

(** [parseSourceFile], lines 63-87: the body of the loop over the call
    expressions, on the keys of the file and the counters of the run;
    [arguments] is [expr.arguments]. *)
Definition parseExpression (st : list string * gmap string nat)
    (arguments : option (list Argument)) : list string * gmap string nat :=
  let '(keys, stats) := st in
  match arguments with
  | Some args =>
      match args !! 0 with
      | Some arg0 =>
          match argValue arg0 with
          | Some value =>
              if Js.truthy value then
                if String.eqb (argType arg0) "Identifier"
                then (keys, bump stats "dynamic")
                else if String.eqb (argType arg0) "Literal"
                        && (negb (String.eqb value "key") && Regex.test templateRe value)
                then (keys, bump stats "dynamic")
                else if typeAt args 1 "Identifier" || typeAt args 1 "CallExpression"
                        || typeAt args 2 "Identifier" || typeAt args 2 "CallExpression"
                        || typeAt args 3 "Identifier" || typeAt args 3 "CallExpression"
                then (keys, bump stats "dynamic")
                else (keys ++ [value], bump stats "keys")
              else st
          | None => st
          end
      | None => st
      end
  | None => st
  end.

(** [parseSourceFile], lines 55-90, for a file that names the translation
    function: the keys of the file and the counters after it. *)
Definition parseSequence (stats : gmap string nat)
    (sequence : list (option (list Argument))) : list string * gmap string nat :=
  fold_left parseExpression sequence ([], stats).

(** The first argument of the call has a value that is not empty. *)
Definition hasKeyValue (arguments : option (list Argument)) : bool :=
  match arguments with
  | Some args =>
      match args !! 0 with
      | Some arg0 => Js.truthy_opt (argValue arg0)
      | None => false
      end
  | None => false
  end.

End Scan.

(** ** The configuration of the sample application *)

Module SpeakConfig.

Section Resolve.

(** A locale: of [SpeakLocale] only the field [lang] is read. *)
Context {Locale : Type}.
Variable lang : Locale -> string.

(** [pathname.startsWith(prefix)] *)
Definition startsWith (pathname prefix : string) : bool :=
  match Js.strip_prefix prefix pathname with
  | Some _ => true
  | None => false
  end.

(** [resolveLocale$]: [pathname] is [url.pathname], [defaultLang] is
    [config.defaultLocale.lang]. *)
Definition resolveLocale (supportedLocales : list Locale) (defaultLang pathname : string)
    : option Locale :=
  let pathLang :=
    lang <$> List.find (fun x => startsWith pathname ("/" +:+ lang x)) supportedLocales in
  let l :=
    match pathLang with
    | Some p => if Js.truthy p then p else defaultLang
    | None => defaultLang
    end in
  List.find (fun x => String.eqb (lang x) l) supportedLocales.

End Resolve.

End SpeakConfig.

(** ** Data of further examples *)

Module MoreExamples.
Import Plugin Scan.

(** [{ k: '5$' }] and [{ k: '5 dollari' }]. *)
Definition price : jsval := JObj {[ "k" := JStr "5$" ]}.
Definition prezzo : jsval := JObj {[ "k" := JStr "5 dollari" ]}.

(** A stand-in for [JSON.parse] on two files: the file [A] holds
    [{ app: { a: 'first' } }], any other file [{ app: { b: 'second' } }]. *)
Definition parseTwoFiles (source : string) : option jsval :=
  if String.eqb source "A"
  then Some (JObj {[ "app" := JObj {[ "a" := JStr "first" ]} ]})
  else Some (JObj {[ "app" := JObj {[ "b" := JStr "second" ]} ]}).

(** The arguments of [t('app.title')] and of [t(key)]. *)
Definition literalCall : option (list Argument) :=
  Some [ {| argType := "Literal"; argValue := Some "app.title" |} ].
Definition identifierCall : option (list Argument) :=
  Some [ {| argType := "Identifier"; argValue := Some "key" |} ].

End MoreExamples.

(** A character that is neither a comma nor a quote character: the class
    [plain] of [Plugin.getParamsRe]. *)
Definition paramPlainChar (a : ascii) : bool :=
  negb (existsb (Ascii.eqb a) (list_ascii_of_string (String "," Plugin.quotes))).

(** A character of a simple expression of a param: no comma, no quote
    character, no white space and no colon. *)
Definition argChar (a : ascii) : bool :=
  paramPlainChar a && negb (Js.is_space a) && isNot ":" a.

(** The last character of [s] is a dollar. *)
Fixpoint endsWithDollar (s : string) : bool :=
  match s with
  | "" => false
  | String a "" => Ascii.eqb a "$"
  | String _ t => endsWithDollar t
  end.
(** * Proofs *)

#[local] Arguments String.append : simpl nomatch.

(** ** Strings *)

Section StringFacts.

Lemma str_app_cons (x : ascii) (a b : string) : String x a +:+ b = String x (a +:+ b).
Proof. reflexivity. Qed.

Lemma str_app_nil_l (a : string) : "" +:+ a = a.
Proof. reflexivity. Qed.

Lemma str_app_nil_r (a : string) : a +:+ "" = a.
Proof. induction a as [|c a IH]; [done | by rewrite str_app_cons, IH]. Qed.

Lemma str_app_assoc (a b c : string) : (a +:+ b) +:+ c = a +:+ (b +:+ c).
Proof. induction a as [|x a IH]; [done | by rewrite !str_app_cons, IH]. Qed.

Lemma len_cons (x : ascii) (a : string) : Js.len (String x a) = S (Js.len a).
Proof. reflexivity. Qed.

Lemma len_app (a b : string) : Js.len (a +:+ b) = Js.len a + Js.len b.
Proof.
  induction a as [|x a IH]; [done |].
  rewrite str_app_cons, !len_cons, IH. lia.
Qed.

Lemma len_0 (s : string) : Js.len s = 0 → s = "".
Proof. by destruct s. Qed.

Lemma strip_prefix_spec (p s r : string) :
  Js.strip_prefix p s = Some r ↔ s = p +:+ r.
Proof.
  revert s. induction p as [|a p IH]; intros s; simpl.
  - split; congruence.
  - destruct s as [|b s]; [split; discriminate |].
    destruct (Ascii.eqb_spec a b) as [->|Hne].
    + rewrite IH. split; congruence.
    + split; [discriminate | congruence].
Qed.

Lemma find_first_eq (pat s : string) :
  Js.find_first pat s =
  match Js.strip_prefix pat s with
  | Some post => Some ("", post)
  | None =>
      match s with
      | "" => None
      | String a s' =>
          match Js.find_first pat s' with
          | Some (pre, post) => Some (String a pre, post)
          | None => None
          end
      end
  end.
Proof. by destruct s. Qed.

(** [find_first] cuts its input at an occurrence of the pattern. *)
Lemma find_first_spec (pat s pre post : string) :
  Js.find_first pat s = Some (pre, post) → s = pre +:+ pat +:+ post.
Proof.
  revert pre post. induction s as [|a s IH]; intros pre post;
    rewrite find_first_eq; destruct (Js.strip_prefix _ _) eqn:E.
  - intros [= <- <-]. rewrite str_app_nil_l. by apply strip_prefix_spec.
  - discriminate.
  - intros [= <- <-]. rewrite str_app_nil_l. by apply strip_prefix_spec.
  - destruct (Js.find_first pat s) as [[pre' post']|] eqn:F; [|discriminate].
    intros [= <- <-]. rewrite str_app_cons. f_equal. by apply IH.
Qed.

(** ... and that occurrence is the first one. *)
Lemma find_first_least (pat s pre post pre' post' : string) :
  Js.find_first pat s = Some (pre, post) →
  s = pre' +:+ pat +:+ post' →
  Js.len pre ≤ Js.len pre'.
Proof.
  revert pre post pre'. induction s as [|a s IH]; intros pre post pre';
    rewrite find_first_eq; destruct (Js.strip_prefix _ _) eqn:E.
  - intros [= <- <-] _. unfold Js.len; simpl; lia.
  - discriminate.
  - intros [= <- <-] _. unfold Js.len; simpl; lia.
  - destruct (Js.find_first pat s) as [[p1 q1]|] eqn:F; [|discriminate].
    intros [= <- <-] Hs. destruct pre' as [|b pre'].
    + rewrite str_app_nil_l in Hs.
      apply strip_prefix_spec in Hs. congruence.
    + rewrite str_app_cons in Hs. injection Hs as -> Hs.
      specialize (IH _ _ _ eq_refl Hs). rewrite !len_cons. lia.
Qed.

Lemma find_first_none (pat s pre post : string) :
  Js.find_first pat s = None → s ≠ pre +:+ pat +:+ post.
Proof.
  revert pre. induction s as [|a s IH]; intros pre;
    rewrite find_first_eq; destruct (Js.strip_prefix _ _) eqn:E; try discriminate.
  - intros _ Hs. destruct pre; [|discriminate].
    rewrite str_app_nil_l in Hs.
    apply strip_prefix_spec in Hs. congruence.
  - destruct (Js.find_first pat s) as [[p1 q1]|] eqn:F; [discriminate|].
    intros _ Hs. destruct pre as [|b pre].
    + rewrite str_app_nil_l in Hs.
      apply strip_prefix_spec in Hs. congruence.
    + rewrite str_app_cons in Hs. injection Hs as -> Hs. by apply (IH pre).
Qed.

Lemma find_first_shorter (pat s pre post : string) :
  pat ≠ "" → Js.find_first pat s = Some (pre, post) → Js.len post < Js.len s.
Proof.
  intros Hp H. apply find_first_spec in H. subst s.
  rewrite !len_app. destruct pat; [done|]. unfold Js.len; simpl. lia.
Qed.

Lemma find_first_empty (pat : string) : pat ≠ "" → Js.find_first pat "" = None.
Proof. by destruct pat. Qed.

(** The fuel of [Js.split] is enough: more of it gives the same pieces. *)
Lemma split_go_fuel (sep : string) (n m : nat) (s : string) :
  sep ≠ "" → Js.len s ≤ n → Js.len s ≤ m →
  Js.split_go n sep s = Js.split_go m sep s.
Proof.
  intros Hsep. revert m s. induction n as [|n IH]; intros [|m] s Hn Hm;
    cbn [Js.split_go]; try done.
  - assert (s = "") as -> by (apply len_0; lia). by rewrite find_first_empty.
  - assert (s = "") as -> by (apply len_0; lia). by rewrite find_first_empty.
  - destruct (Js.find_first sep s) as [[pre post]|] eqn:E; [|done].
    pose proof (find_first_shorter _ _ _ _ Hsep E). f_equal. apply IH; lia.
Qed.

(** The first piece of a split, and the second one, when the separator is
    not empty and occurs in the string. *)
Lemma split_go_head (fuel : nat) (sep s : string) :
  sep ≠ "" → Js.len s ≤ fuel →
  head (Js.split_go fuel sep s)
  = Some (match Js.find_first sep s with Some (pre, _) => pre | None => s end).
Proof.
  intros Hsep Hf. destruct fuel as [|fuel]; simpl.
  - assert (s = "") as -> by (apply len_0; lia).
    by rewrite find_first_empty.
  - by destruct (Js.find_first sep s) as [[pre post]|].
Qed.

Lemma split_first_occurrence (s sep k rest : string) :
  sep ≠ "" → Js.find_first sep s = Some (k, rest) →
  ∃ tail, Js.split s sep = k :: tail
          ∧ head tail = Some (match Js.find_first sep rest with
                              | Some (d, _) => d
                              | None => rest
                              end).
Proof.
  intros Hsep H. unfold Js.split. destruct sep as [|a sep]; [done|].
  pose proof (find_first_shorter _ _ _ _ Hsep H) as Hlt.
  destruct (Js.len s) as [|n] eqn:E; [lia|].
  simpl Js.split_go. rewrite H. eexists; split; [done|].
  apply split_go_head; [done | lia].
Qed.

Lemma split_no_occurrence (s sep : string) :
  sep ≠ "" → Js.find_first sep s = None → Js.split s sep = [s].
Proof.
  intros Hsep H. unfold Js.split. destruct sep as [|a sep]; [done|].
  destruct (Js.len s); simpl; [done | by rewrite H].
Qed.

(** A key without the separator is seeded with the empty string. *)
Lemma seed_without_default (key sep : string) :
  sep ≠ "" → Js.find_first sep key = None →
  Extract.keyAndDefault key sep = (Some key, None)
  ∧ Extract.seedValue (Extract.keyAndDefault key sep).2 = "".
Proof.
  intros Hsep H. unfold Extract.keyAndDefault.
  by rewrite split_no_occurrence.
Qed.

End StringFacts.

(** ** The regular expressions of the plugin *)

Section RegexFacts.
Import Regex Plugin.

#[local] Arguments Js.len : simpl never.
#[local] Arguments Js.take : simpl never.
#[local] Arguments Nat.eqb : simpl never.
#[local] Arguments Nat.ltb : simpl never.
#[local] Arguments Nat.sub : simpl never.

#[local] Arguments is_quote : simpl never.

Lemma exec_trim_inner (n0 : nat) (a : ascii) (t : string) :
  Js.len (String a t) ≠ n0 →
  exec_at trimQuotesRe n0 (String a t)
  = match t with
    | "" => if is_quote a then Some ("", [(3, String a "")]) else None
    | _ => None
    end.
Proof.
  intros Hn. unfold exec_at, trimQuotesRe.
  change (one_of quotes) with (Chr is_quote). simpl.
  apply Nat.eqb_neq in Hn. rewrite Hn.
  destruct t as [|b t]; [|by destruct (is_quote a)].
  by destruct (is_quote a).
Qed.

Lemma exec_trim_first (n0 : nat) (q : ascii) (t : string) :
  is_quote q = true → Js.len (String q t) = n0 →
  ∃ c, exec_at trimQuotesRe n0 (String q t) = Some (t, c).
Proof.
  intros Hq Hn. unfold exec_at, trimQuotesRe.
  change (one_of quotes) with (Chr is_quote). simpl.
  apply Nat.eqb_eq in Hn. rewrite Hn, Hq. by eexists.
Qed.

Lemma exec_trim_empty (n0 : nat) : n0 ≠ 0 → exec_at trimQuotesRe n0 "" = None.
Proof.
  intros Hn. unfold exec_at, trimQuotesRe. simpl.
  replace (Js.len "" =? n0) with false; [done|].
  symmetry. apply Nat.eqb_neq. unfold Js.len. simpl. lia.
Qed.

Lemma replace_go_trim_tail (q : ascii) (x : string) (fuel n0 : nat) :
  is_quote q = true → Js.len x + 2 ≤ fuel → Js.len x + 1 < n0 →
  replace_go fuel trimQuotesRe (fun _ _ => "") n0 (x +:+ String q "") = x.
Proof.
  intros Hq. revert fuel. induction x as [|a x IH]; intros fuel Hf Hn.
  - change (Js.len "") with 0 in *.
    destruct fuel as [|[|fuel]]; [lia ..|].
    rewrite str_app_nil_l. simpl.
    rewrite exec_trim_inner by (rewrite len_cons; change (Js.len "") with 0; lia).
    rewrite Hq. rewrite exec_trim_empty by lia. done.
  - rewrite len_cons in Hf, Hn. destruct fuel as [|fuel]; [lia|].
    rewrite str_app_cons. simpl.
    rewrite exec_trim_inner
      by (rewrite len_cons, len_app, len_cons; change (Js.len "") with 0; lia).
    assert (∃ b s, x +:+ String q "" = String b s) as (b & s & E)
      by (destruct x; simpl; eauto).
    rewrite E at 1. rewrite IH by lia. done.
Qed.

Lemma replace_go_S (fuel : nat) (r : re) (f : string → caps → string)
    (n0 : nat) (t : string) :
  replace_go (S fuel) r f n0 t =
  let skip :=
    match t with
    | "" => ""
    | String a t1 => String a (replace_go fuel r f n0 t1)
    end in
  match exec_at r n0 t with
  | Some (t', c) =>
      if Js.len t' <? Js.len t
      then f (Js.take (Js.len t - Js.len t') t) c +:+ replace_go fuel r f n0 t'
      else f "" c +:+ skip
  | None => skip
  end.
Proof. reflexivity. Qed.

(** The fuel of [replace_all] is enough: more of it gives the same text. *)
Lemma replace_go_fuel (r : re) (f : string → caps → string) (n0 n m : nat)
    (t : string) :
  Js.len t < n → Js.len t < m → replace_go n r f n0 t = replace_go m r f n0 t.
Proof.
  revert m t. induction n as [|n IH]; intros [|m] t Hn Hm; try lia.
  rewrite !replace_go_S. cbv zeta.
  assert (match t with
          | "" => ""
          | String a t1 => String a (replace_go n r f n0 t1)
          end
          = match t with
            | "" => ""
            | String a t1 => String a (replace_go m r f n0 t1)
            end) as Hskip.
  { destruct t as [|a t1]; [done|]. rewrite len_cons in Hn, Hm.
    f_equal. apply IH; lia. }
  rewrite Hskip. destruct (exec_at r n0 t) as [[t' c]|]; [|done].
  destruct (Js.len t' <? Js.len t) eqn:Hlt; [|done].
  apply Nat.ltb_lt in Hlt. f_equal. apply IH; lia.
Qed.

(** [trimQuotes] on a string literal gives the text between the quotes. *)
Lemma trimQuotes_literal (q : ascii) (x : string) :
  is_quote q = true → trimQuotes (String q (x +:+ String q "")) = x.
Proof.
  intros Hq. unfold trimQuotes, replace_all. rewrite replace_go_S. cbv zeta.
  destruct (exec_trim_first (Js.len (String q (x +:+ String q ""))) q
              (x +:+ String q "") Hq eq_refl) as [c ->].
  rewrite (proj2 (Nat.ltb_lt _ _)) by (rewrite len_cons; lia).
  match goal with |- "" +:+ ?r = _ => change (r = x) end.
  apply replace_go_trim_tail; [done | |];
    rewrite !len_cons, len_app, len_cons; change (Js.len "") with 0; lia.
Qed.

(** A value without characters has no placeholder to replace. *)
Lemma handleParam_empty (param : string) : handleParam "" param = "".
Proof.
  unfold handleParam.
  destruct (map Js.trim (Js.split param ":")) as [|a [|b [|c l]]]; done.
Qed.

Lemma handleParams_empty (args : string) : handleParams "" args = Some "``".
Proof.
  unfold handleParams.
  assert (∀ l, fold_left handleParam l "" = "") as ->; [|done].
  induction l as [|p l IH]; simpl; [done|]. by rewrite handleParam_empty.
Qed.

End RegexFacts.

(** ** The fallback chain *)

Section ChainFacts.
Import Plugin.

Lemma concatStrings_cons (a : string) (l : list string) :
  concatStrings (a :: l) = a +:+ concatStrings l.
Proof. reflexivity. Qed.

(** The term that the loop of [buildLine] appends is [chainTerm]. *)
Lemma buildLine_term (g lang : string) (value : option string) :
  g +:+ " === " +:+ quoteValue lang +:+ " && " +:+ Js.to_string value +:+ " || "
  = chainTerm g lang value.
Proof.
  unfold chainTerm, quoteValue. f_equal.
  change (" === `" +:+ ?x) with (" === " +:+ "`" +:+ x). f_equal.
  rewrite !str_app_assoc. reflexivity.
Qed.

Lemma buildLine_loop (g : string) (values : gmap string string)
    (l : list string) (acc : string) :
  fold_left
    (fun translatedLine lang =>
       translatedLine +:+ g +:+ " === " +:+ quoteValue lang +:+ " && "
       +:+ Js.to_string (values !! lang) +:+ " || ") l acc
  = acc +:+ concatStrings (map (fun lang => chainTerm g lang (values !! lang)) l).
Proof.
  revert acc. induction l as [|a l IH]; intros acc; cbn [fold_left map].
  - by rewrite str_app_nil_r.
  - rewrite buildLine_term, IH, concatStrings_cons. by rewrite str_app_assoc.
Qed.

(** [buildLine] writes the chain of the values of its map. *)
Lemma buildLine_chain (g : string) (values : gmap string string)
    (langs : list string) (d : string) :
  buildLine g values langs d = chain g (fun lang => values !! lang) langs d.
Proof. unfold buildLine, chain. by rewrite buildLine_loop. Qed.

(** The chain reads the values of the languages of the list and of the
    default language only. *)
Lemma chain_ext (g : string) (f h : string → option string)
    (langs : list string) (d : string) :
  (∀ lang, lang ∈ langs → lang ≠ d → f lang = h lang) → f d = h d →
  chain g f langs d = chain g h langs d.
Proof.
  intros Hl Hd. unfold chain. rewrite Hd. f_equal. f_equal.
  apply map_ext_in. intros lang Hin. apply list_elem_of_In in Hin.
  apply list_elem_of_filter in Hin as [Hne Hin]. by rewrite Hl.
Qed.

End ChainFacts.

(** ** The loop of [inline] *)

Section InlineFacts.
Import Plugin.

Variable globalLang : string.
Variable translateFnMatch : string → option (list string).
Variable translateFnSignatureMatch : string → option string.
Variable rt : Runtime.
Variable translation : gmap string jsval.
Variable opts : Options.

Lemma bind_Ok {A B} (a : A) (f : A → outcome B) : (Ok a ≫= f) = f a.
Proof. done. Qed.

Lemma fold_TypeError {A B} (f : A → B → outcome A) (l : list B) :
  fold_left (fun acc b => st ← acc; f st b) l TypeError = TypeError.
Proof. by induction l. Qed.

(** A value that [getValue] returns is not the empty string. *)
Lemma getValue_truthy (key : string) (data : option node) (args : option string)
    (keySeparator v : string) :
  getValue rt key data args keySeparator = Ok (Some v) → Js.truthy v = true.
Proof.
  unfold getValue, handleParams.
  destruct (walk rt key data keySeparator) as [[[[ | | |s| | ]|h]|]|];
    cbn; try discriminate.
  destruct args as [a|]; [destruct (Js.truthy a)|]; by intros [= <-].
Qed.

Lemma valueIn_truthy (key : string) (params : list string) (lang v : string) :
  valueIn rt translation opts key params lang = Ok (Some v) → Js.truthy v = true.
Proof.
  unfold valueIn. destruct (langData rt translation lang) as [data|]; [|done].
  cbn. apply getValue_truthy.
Qed.

Lemma otherValue_eq (key : string) (params : list string)
    (values : gmap string string) (trace : list string) (lang : string) :
  otherValue rt translation opts key params (values, trace) lang
  = match valueIn rt translation opts key params lang with
    | Ok (Some value) => Ok (<[lang := value]> values, trace)
    | Ok None => Ok (values, trace ++ [lang +:+ " - missing value for key: " +:+ key])
    | TypeError => TypeError
    end.
Proof.
  unfold otherValue, log.
  destruct (valueIn rt translation opts key params lang) as [[v|]|] eqn:E; [|done..].
  cbn. by rewrite (valueIn_truthy _ _ _ _ E).
Qed.

(** The state after the loop over the other languages, when [getValue]
    returns for each of them, [value lang] being what it returns: every
    language of the list has its value in the map, when it has one, and its
    notice in the trace, when it has none. *)
Lemma otherValues_loop (key : string) (params : list string) (l : list string)
    (value : string → option string)
    (values : gmap string string) (trace : list string) :
  (∀ lang, lang ∈ l → valueIn rt translation opts key params lang = Ok (value lang)) →
  ∃ st,
    fold_left (fun acc lang => st ← acc; otherValue rt translation opts key params st lang)
      l (Ok (values, trace)) = Ok st
    ∧ (∀ lang, st.1 !! lang =
               if decide (lang ∈ l)
               then match value lang with
                    | Some v => Some v
                    | None => values !! lang
                    end
               else values !! lang)
    ∧ st.2 = trace ++ map (fun lang => lang +:+ " - missing value for key: " +:+ key)
                          (filter (fun lang => value lang = None) l).
Proof.
  revert values trace. induction l as [|a l IH]; intros values trace Hv; cbn [fold_left].
  - exists (values, trace). split; [done|]. split; [|by rewrite filter_nil, app_nil_r].
    intros lang. by rewrite decide_False by apply not_elem_of_nil.
  - change (Ok (values, trace) ≫= _)
      with (otherValue rt translation opts key params (values, trace) a).
    assert (∀ lang, lang ∈ l →
              valueIn rt translation opts key params lang = Ok (value lang)) as Hl
      by (intros lang Hin; apply Hv, elem_of_cons; auto).
    rewrite otherValue_eq, (Hv a) by (apply elem_of_cons; auto).
    rewrite filter_cons.
    destruct (value a) as [v|] eqn:Ea.
    + destruct (IH (<[a := v]> values) trace Hl) as (st & E & Hm & Ht).
      exists st. split; [done|].
      split; [|by rewrite Ht, decide_False by done].
      intros lang. rewrite Hm. destruct (decide (lang = a)) as [->|Hne].
      * rewrite Ea, lookup_insert_eq, (decide_True (P := a ∈ a :: l))
          by (apply elem_of_cons; auto).
        by case_decide.
      * rewrite lookup_insert_ne by done.
        destruct (decide (lang ∈ l)).
        -- by rewrite decide_True by (apply elem_of_cons; auto).
        -- by rewrite decide_False by (rewrite elem_of_cons; intros [?|?]; done).
    + destruct (IH values (trace ++ [a +:+ " - missing value for key: " +:+ key]) Hl)
        as (st & E & Hm & Ht).
      exists st. split; [done|].
      split; [|by rewrite Ht, decide_True, <- app_assoc by done].
      intros lang. rewrite Hm. destruct (decide (lang = a)) as [->|Hne].
      * rewrite Ea, (decide_True (P := a ∈ a :: l))
          by (apply elem_of_cons; auto).
        by case_decide.
      * destruct (decide (lang ∈ l)).
        -- by rewrite decide_True by (apply elem_of_cons; auto).
        -- by rewrite decide_False by (rewrite elem_of_cons; intros [?|?]; done).
Qed.

(** A call whose params are static and whose key has a value in the default
    language is replaced by the chain of the values of its key; the trace
    gets the notice of every other language without a value. [value lang]
    is what [getValue] returns for the language. *)
Lemma inlineArgs_resolved (code : string) (trace : list string)
    (originalFn args param0 key defaultValue : string) (langs : list string) (d : string)
    (value : string → option string) :
  dynamicParams (getParams args) = false →
  getParams args !! 0 = Some param0 →
  getKey param0 opts.(keyValueSeparator) = Some key →
  callLangs opts (getParams args) = (langs, d) →
  (∀ lang, lang = d ∨ lang ∈ langs →
           valueIn rt translation opts key (getParams args) lang = Ok (value lang)) →
  value d = Some defaultValue →
  inlineArgs globalLang rt translation opts code trace originalFn args
  = Ok (Js.replace code originalFn (chain globalLang value langs d),
        trace ++ missingNotices key value langs d).
Proof.
  intros Hdyn H0 Hkey Hlangs Hv Hd. unfold inlineArgs.
  rewrite Hdyn, Hlangs, H0, Hkey. cbv zeta.
  pose proof (Hv d (or_introl eq_refl)) as Hvd. rewrite Hd in Hvd.
  rewrite Hvd. cbn. rewrite (valueIn_truthy _ _ _ _ Hvd). unfold otherValues.
  destruct (otherValues_loop key (getParams args) (filter (fun x => x ≠ d) langs)
              value (<[d := defaultValue]> ∅) trace) as (st & E & Hm & Ht).
  { intros lang [_ Hin]%list_elem_of_filter. apply Hv. by right. }
  rewrite E. destruct st as [values trace']. cbn [fst snd] in Hm, Ht. cbn.
  rewrite buildLine_chain. subst trace'. do 3 f_equal.
  apply chain_ext.
  - intros lang Hin Hne. rewrite Hm, lookup_insert_ne, lookup_empty by done.
    rewrite decide_True by (by apply list_elem_of_filter).
    by destruct (value lang).
  - rewrite Hm, lookup_insert_eq, Hd.
    by rewrite decide_False by (rewrite list_elem_of_filter; intros [? _]; done).
Qed.

(** A call whose key has no value in the default language stays as it is,
    and the trace gets one notice. *)
Lemma inlineArgs_default_missing (code : string) (trace : list string)
    (originalFn args param0 key : string) (langs : list string) (d : string) :
  dynamicParams (getParams args) = false →
  getParams args !! 0 = Some param0 →
  getKey param0 opts.(keyValueSeparator) = Some key →
  callLangs opts (getParams args) = (langs, d) →
  valueIn rt translation opts key (getParams args) d = Ok None →
  inlineArgs globalLang rt translation opts code trace originalFn args
  = Ok (code, trace ++ [d +:+ " - missing value for key: " +:+ key +:+ " - Skip"]).
Proof.
  intros Hdyn H0 Hkey Hlangs Hd. unfold inlineArgs.
  rewrite Hdyn, Hlangs, H0, Hkey. cbv zeta. by rewrite Hd.
Qed.

End InlineFacts.

(** ** The replacement patterns at the end of a chain *)

Section SubstitutionFacts.

Lemma endsWithDollar_cons (a b : ascii) (t : string) :
  endsWithDollar (String a (String b t)) = endsWithDollar (String b t).
Proof. done. Qed.

Lemma endsWithDollar_app (s t : string) :
  t ≠ "" → endsWithDollar (s +:+ t) = endsWithDollar t.
Proof.
  intros Ht. induction s as [|a s IH]; [done|]. rewrite str_app_cons.
  destruct (s +:+ t) as [|b u] eqn:E.
  - destruct s; [by rewrite str_app_nil_l in E | discriminate].
  - by rewrite endsWithDollar_cons.
Qed.

(** The replacement patterns of a text are those of its parts, when the
    first part does not end with a dollar. *)
Lemma get_substitution_app (matched pre post a b : string) :
  endsWithDollar a = false →
  Js.get_substitution matched pre post (a +:+ b)
  = Js.get_substitution matched pre post a +:+ Js.get_substitution matched pre post b.
Proof.
  remember (Js.len a) as n eqn:Hn. revert a Hn.
  induction n as [n IH] using lt_wf_ind. intros a Hn Ha.
  destruct a as [|x t]; [by rewrite !str_app_nil_l|].
  rewrite len_cons in Hn. rewrite str_app_cons.
  cbn [Js.get_substitution].
  destruct (Ascii.eqb x "$") eqn:Ex.
  - destruct t as [|y t'].
    + cbn in Ha. congruence.
    + rewrite len_cons in Hn. rewrite str_app_cons.
      assert (endsWithDollar t' = false ∨ t' = "") as Ht'.
      { destruct t' as [|z u]; [by right|]. left.
        by rewrite !endsWithDollar_cons in Ha. }
      assert (Js.get_substitution matched pre post (t' +:+ b)
              = Js.get_substitution matched pre post t'
                +:+ Js.get_substitution matched pre post b) as E2.
      { destruct Ht' as [Ht'| ->]; [|by rewrite !str_app_nil_l].
        apply (IH (Js.len t')); [lia | done | done]. }
      assert (Js.get_substitution matched pre post (String y t' +:+ b)
              = Js.get_substitution matched pre post (String y t')
                +:+ Js.get_substitution matched pre post b) as E1.
      { apply (IH (Js.len (String y t'))); [rewrite len_cons; lia | done |].
        by rewrite endsWithDollar_cons in Ha. }
      rewrite str_app_cons in E1.
      destruct (Ascii.eqb y "$"); [by rewrite E2|].
      destruct (Ascii.eqb y "&"); [by rewrite E2, str_app_assoc|].
      destruct (Ascii.eqb y "`"); [by rewrite E2, str_app_assoc|].
      destruct (Ascii.eqb y "'"); [by rewrite E2, str_app_assoc|].
      by rewrite E1.
  - assert (Js.get_substitution matched pre post (t +:+ b)
            = Js.get_substitution matched pre post t
              +:+ Js.get_substitution matched pre post b) as E.
    { destruct t as [|y t']; [by rewrite !str_app_nil_l|].
      apply (IH (Js.len (String y t'))); [lia | done |].
      by rewrite endsWithDollar_cons in Ha. }
    by rewrite E.
Qed.

(** The terms of a chain do not end with a dollar. *)
Lemma chainTerms_end (globalLang : string) (value : string → option string)
    (langs : list string) (d : string) :
  endsWithDollar (chainTerms globalLang value langs d) = false.
Proof.
  unfold chainTerms. induction (filter (fun x => x ≠ d) langs) as [|lang l IH]; [done|].
  cbn [map]. rewrite concatStrings_cons.
  destruct (concatStrings (map (fun lang => chainTerm globalLang lang (value lang)) l))
    as [|c u] eqn:E.
  - rewrite str_app_nil_r. unfold chainTerm.
    rewrite <- !str_app_assoc. by rewrite endsWithDollar_app.
  - by rewrite endsWithDollar_app by done.
Qed.

Lemma chain_chainTerms (globalLang : string) (value : string → option string)
    (langs : list string) (d : string) :
  chain globalLang value langs d
  = chainTerms globalLang value langs d +:+ Js.to_string (value d).
Proof. done. Qed.

End SubstitutionFacts.

(** ** The claims on one call *)

Section CallClaims.
Import Plugin.

Variable globalLang : string.
Variable translateFnSignatureMatch : string → option string.
Variable rt : Runtime.
Variable translation : gmap string jsval.
Variable opts : Options.

Lemma inlineCall_args (code : string) (trace : list string) (originalFn args : string) :
  translateFnSignatureMatch originalFn = Some args → Js.truthy args = true →
  inlineCall globalLang translateFnSignatureMatch rt translation opts code trace originalFn
  = inlineArgs globalLang rt translation opts code trace originalFn args.
Proof. intros Hs Ht. unfold inlineCall. by rewrite Hs, Ht. Qed.

(** A term of the chain is a part of the chain. *)
Lemma chain_has_term (value : string → option string) (langs : list string)
    (d lang : string) :
  lang ∈ langs → lang ≠ d →
  ∃ before after,
    chain globalLang value langs d
    = before +:+ chainTerm globalLang lang (value lang) +:+ after.
Proof.
  intros Hin Hne. unfold chain.
  assert (lang ∈ filter (fun x => x ≠ d) langs) as Hf by (by apply list_elem_of_filter).
  apply list_elem_of_split in Hf as (l1 & l2 & ->).
  exists (concatStrings (map (fun l => chainTerm globalLang l (value l)) l1)).
  exists (concatStrings (map (fun l => chainTerm globalLang l (value l)) l2)
          +:+ Js.to_string (value d)).
  rewrite map_app. cbn [map].
  generalize (map (fun l => chainTerm globalLang l (value l)) l1) as m1.
  generalize (map (fun l => chainTerm globalLang l (value l)) l2) as m2.
  intros m2 m1. induction m1 as [|x m1 IH].
  - cbn [app]. rewrite concatStrings_cons. cbn [concatStrings foldr].
    by rewrite str_app_nil_l, str_app_assoc.
  - cbn [app]. rewrite !concatStrings_cons, !str_app_assoc. by rewrite IH.
Qed.

(** C1, as amended. Take a call with static params whose key has a value in
    its default language, and let [value lang] be what [getValue] returns
    for each language of the call. The call is replaced by the chain that
    has a term for every other language of the call, and the trace gets a
    notice for every such language without a value. The term of a language
    without a value is still in the chain: it reads
    [<globalLang> === `<lang>` && undefined || ]. *)
Theorem C1_missing_locale_keeps_its_term
    (code : string) (trace : list string)
    (originalFn args param0 key defaultValue : string) (langs : list string) (d : string)
    (value : string → option string) :
  translateFnSignatureMatch originalFn = Some args →
  Js.truthy args = true →
  dynamicParams (getParams args) = false →
  getParams args !! 0 = Some param0 →
  getKey param0 opts.(keyValueSeparator) = Some key →
  callLangs opts (getParams args) = (langs, d) →
  (∀ lang, lang = d ∨ lang ∈ langs →
           valueIn rt translation opts key (getParams args) lang = Ok (value lang)) →
  value d = Some defaultValue →
  inlineCall globalLang translateFnSignatureMatch rt translation opts code trace originalFn
  = Ok (Js.replace code originalFn (chain globalLang value langs d),
        trace ++ missingNotices key value langs d)
  ∧ ∀ lang, lang ∈ langs → lang ≠ d → value lang = None →
      (lang +:+ " - missing value for key: " +:+ key) ∈ missingNotices key value langs d
      ∧ ∃ before after,
          chain globalLang value langs d
          = before +:+ (globalLang +:+ " === `" +:+ lang +:+ "` && undefined || ")
            +:+ after.
Proof.
  intros Hs Ht Hdyn H0 Hkey Hlangs Hv Hd. split.
  - rewrite (inlineCall_args _ _ _ args) by done.
    by apply (inlineArgs_resolved _ _ _ _ _ _ _ _ param0 key defaultValue).
  - intros lang Hin Hne Hnone. split.
    + unfold missingNotices. apply list_elem_of_fmap. exists lang. split; [done|].
      apply list_elem_of_filter. split; [done|]. by apply list_elem_of_filter.
    + destruct (chain_has_term value langs d lang Hin Hne) as (b & a & E).
      exists b, a. by rewrite E, Hnone.
Qed.


(** C9. Take a call with static params whose key leads, in the data of its
    default language, to the empty string; let the text of the call occur
    in the code, first after [pre] and before [post], and let [value lang]
    be what [getValue] returns for each language of the call. [getValue]
    gives for the default language the empty template literal, two
    backticks, whatever the params are. The call is not skipped: the trace
    gets no notice but those of the other languages without a value, and
    the occurrence of the call is replaced by the chain, whose last term is
    the empty template literal; the code before and after it stays. *)
Theorem C9_empty_leaf_is_inlined
    (code : string) (trace : list string)
    (originalFn args param0 key : string) (langs : list string) (d : string)
    (data : option node) (value : string → option string) (pre post : string) :
  translateFnSignatureMatch originalFn = Some args →
  Js.truthy args = true →
  dynamicParams (getParams args) = false →
  getParams args !! 0 = Some param0 →
  getKey param0 opts.(keyValueSeparator) = Some key →
  callLangs opts (getParams args) = (langs, d) →
  langData rt translation d = Ok data →
  walk rt key data opts.(keySeparator) = Ok (Some (Data (JStr ""))) →
  (∀ lang, lang = d ∨ lang ∈ langs →
           valueIn rt translation opts key (getParams args) lang = Ok (value lang)) →
  Js.find_first originalFn code = Some (pre, post) →
  getValue rt key data (getParams args !! 1) opts.(keySeparator) = Ok (Some "``")
  ∧ value d = Some "``"
  ∧ code = pre +:+ originalFn +:+ post
  ∧ chain globalLang value langs d = chainTerms globalLang value langs d +:+ "``"
  ∧ inlineCall globalLang translateFnSignatureMatch rt translation opts code trace originalFn
    = Ok (pre
          +:+ (Js.get_substitution originalFn pre post (chainTerms globalLang value langs d)
               +:+ "``")
          +:+ post,
          trace ++ missingNotices key value langs d).
Proof.
  intros Hs Ht Hdyn H0 Hkey Hlangs Hdata Hw Hv Hfind.
  assert (getValue rt key data (getParams args !! 1) opts.(keySeparator)
          = Ok (Some "``")) as Hg.
  { unfold getValue. rewrite Hw. cbn. destruct (getParams args !! 1) as [a|]; [|done].
    destruct (Js.truthy a); [|done]. by rewrite handleParams_empty. }
  assert (value d = Some "``") as Hd.
  { pose proof (Hv d (or_introl eq_refl)) as Hvd. unfold valueIn in Hvd.
    rewrite Hdata in Hvd. cbn in Hvd. rewrite Hg in Hvd. congruence. }
  split; [done|]. split; [done|].
  split; [by apply find_first_spec|].
  split; [by rewrite chain_chainTerms, Hd|].
  rewrite (inlineCall_args _ _ _ args) by done.
  rewrite (inlineArgs_resolved _ _ _ _ _ _ _ _ param0 key "``" langs d value) by done.
  unfold Js.replace. rewrite Hfind, chain_chainTerms, Hd.
  rewrite get_substitution_app by apply chainTerms_end. done.
Qed.

End CallClaims.

(** ** The claims on the whole transform *)

Section FrameClaims.
Import Plugin.

Variable globalLang : string.
Variable translateFnMatch : string → option (list string).
Variable translateFnSignatureMatch : string → option string.
Variable rt : Runtime.
Variable translation : gmap string jsval.
Variable opts : Options.

(** One turn of the loop that returns: the call is not resolved and the
    code stays as it is, or the call is resolved and the code is the result
    of [replace] on the text of the call. *)
Lemma inlineCall_turn (code code' : string) (trace trace' : list string)
    (originalFn : string) :
  inlineCall globalLang translateFnSignatureMatch rt translation opts code trace originalFn
  = Ok (code', trace') →
  (¬ resolvedCall translateFnSignatureMatch rt translation opts originalFn ∧ code' = code)
  ∨ (resolvedCall translateFnSignatureMatch rt translation opts originalFn
     ∧ ∃ line, code' = Js.replace code originalFn line).
Proof.
  unfold inlineCall.
  destruct (translateFnSignatureMatch originalFn) as [args|] eqn:Hs.
  2:{ intros [= <- <-]. left. split; [|done].
      intros (a & p & k & v & Hs' & _). congruence. }
  destruct (Js.truthy args) eqn:Ht.
  2:{ intros [= <- <-]. left. split; [|done].
      intros (a & p & k & v & Hs' & Ht' & _). congruence. }
  unfold inlineArgs.
  destruct (dynamicParams (getParams args)) eqn:Hdyn.
  { intros [= <- <-]. left. split; [|done].
    intros (a & p & k & v & Hs' & _ & Hdyn' & _). congruence. }
  destruct (callLangs opts (getParams args)) as [langs d] eqn:Hlangs.
  destruct (getParams args !! 0) as [param0|] eqn:H0; [|discriminate].
  destruct (getKey param0 (keyValueSeparator opts)) as [key|] eqn:Hkey; [|discriminate].
  cbv zeta.
  destruct (valueIn rt translation opts key (getParams args) d)
    as [[defaultValue|]|] eqn:Hd; [| |discriminate].
  - cbn. rewrite (valueIn_truthy _ _ _ _ _ _ _ Hd).
    destruct (otherValues _ _ _ _ _ _ _ _) as [[values tr']|]; [|discriminate].
    cbn. intros [= <- <-]. right. split; [|by eexists].
    exists args, param0, key, defaultValue. rewrite Hlangs. by cbn [snd].
  - cbn. intros [= <- <-]. left. split; [|done].
    intros (a & p & k & v & Hs' & _ & _ & H0' & Hkey' & Hv').
    assert (a = args) as -> by congruence.
    assert (p = param0) as -> by congruence.
    assert (k = key) as -> by congruence.
    rewrite Hlangs in Hv'. cbn [snd] in Hv'. congruence.
Qed.

Lemma rewritesFirst_none (P : string → Prop) (l : list string) (c c' : string) :
  (∀ fn, fn ∈ l → ¬ P fn) → rewritesFirst P l c c' → c' = c.
Proof.
  intros HP H. induction H as [c|fn l c c' _ _ IH|fn l c pre post line c' Hfn _ _ _].
  - done.
  - apply IH. intros f Hf. apply HP, elem_of_cons. auto.
  - destruct (HP fn); [apply elem_of_cons; auto | done].
Qed.

(** The loop over the matches makes one step for each match. *)
Lemma inline_loop (matches : list string) (code code' : string)
    (trace trace' : list string) :
  fold_left (fun acc originalFn =>
               st ← acc;
               inlineCall globalLang translateFnSignatureMatch rt translation opts
                 (fst st) (snd st) originalFn)
    matches (Ok (code, trace)) = Ok (code', trace') →
  rewritesFirst (resolvedCall translateFnSignatureMatch rt translation opts)
    matches code code'.
Proof.
  revert code trace. induction matches as [|fn l IH]; intros code trace; cbn [fold_left].
  - intros [= <- <-]. constructor.
  - change (Ok (code, trace) ≫= _)
      with (inlineCall globalLang translateFnSignatureMatch rt translation opts
              code trace fn).
    destruct (inlineCall globalLang translateFnSignatureMatch rt translation opts
                code trace fn) as [[c1 t1]|] eqn:E;
      [|by rewrite fold_TypeError].
    intros H. apply IH in H.
    apply inlineCall_turn in E as [[Hno ->]|(Hres & line & ->)].
    + apply rewritesFirst_skip; [by left | done].
    + unfold Js.replace in H.
      destruct (Js.find_first fn code) as [[pre post]|] eqn:Hf.
      * by eapply rewritesFirst_step.
      * apply rewritesFirst_skip; [by right | done].
Qed.

(** C4, as amended. When [inline] returns a code block, the block comes from
    the input by one step for each match, in the order of the matches. The
    step of a match that is not resolved (no signature, a second param
    without a property name, no value in the default language) leaves the
    code as it is. The step of a resolved match replaces the first
    occurrence of the text of the match in the code as it then stands, and
    keeps the code before and after that occurrence. With no resolved match
    the block is the input. *)
Theorem C4_code_outside_the_replaced_occurrences_is_kept
    (code code' : string) (trace : list string) :
  inline globalLang translateFnMatch translateFnSignatureMatch rt translation opts code
  = Ok (Some code', trace) →
  ∃ matches,
    translateFnMatch code = Some matches
    ∧ rewritesFirst (resolvedCall translateFnSignatureMatch rt translation opts)
        matches code code'
    ∧ ((∀ fn, fn ∈ matches
              → ¬ resolvedCall translateFnSignatureMatch rt translation opts fn)
       → code' = code)
    ∧ ∀ fn c t c' t',
        ¬ resolvedCall translateFnSignatureMatch rt translation opts fn →
        inlineCall globalLang translateFnSignatureMatch rt translation opts c t fn
        = Ok (c', t') →
        c' = c.
Proof.
  unfold inline. destruct (translateFnMatch code) as [matches|]; [|discriminate].
  destruct (fold_left _ matches _) as [[c t]|] eqn:E; [|discriminate].
  cbn. intros [= <- <-]. exists matches. apply inline_loop in E.
  split; [done|]. split; [done|]. split.
  - intros Hno. by eapply rewritesFirst_none.
  - intros fn c0 t0 c1 t1 Hno Hc.
    by apply inlineCall_turn in Hc as [[_ ->]|[Hres _]].
Qed.

End FrameClaims.

(** ** The walk of [getValue] *)

Section WalkFacts.
Import Plugin.

Variable rt : Runtime.

Lemma walkFrom_cons (cur : string) (rest : list string) (data : option node) :
  walkFrom rt (cur :: rest) data
  = (a ← walkStep rt data cur; walkFrom rt rest a).
Proof.
  unfold walkFrom. cbn [fold_left].
  change (Ok data ≫= _) with (walkStep rt data cur).
  destruct (walkStep rt data cur); [done|]. by rewrite fold_TypeError.
Qed.

Lemma walkFrom_app (before after : list string) (data : option node) :
  walkFrom rt (before ++ after) data
  = (a ← walkFrom rt before data; walkFrom rt after a).
Proof.
  revert data. induction before as [|cur l IH]; intros data; [done|].
  cbn [app]. rewrite !walkFrom_cons.
  destruct (walkStep rt data cur) as [a|]; [|done]. cbn. apply IH.
Qed.

Lemma walk_null (segments : list string) : walkFrom rt segments None = Ok None.
Proof.
  induction segments as [|cur l IH]; [done|]. by rewrite walkFrom_cons.
Qed.

(** No key has a value in a tree that is absent. *)
Lemma getValue_absent_tree (key : string) (args : option string) (keySeparator : string) :
  getValue rt key None args keySeparator = Ok None.
Proof. unfold getValue, walk. by rewrite walk_null. Qed.

(** A segment that is neither an entry of the object reached nor a member
    that the object inherits ends the walk without a value, whatever the
    segments after it. *)
Lemma walk_missing_entry (before after : list string) (cur : string)
    (data : option node) (m : gmap string jsval) :
  walkFrom rt before data = Ok (Some (Data (JObj m))) →
  m !! cur = None →
  rt (Data (JObj m)) cur = Ok None →
  walkFrom rt (before ++ cur :: after) data = Ok None.
Proof.
  intros Hb Hm Hrt. rewrite walkFrom_app, Hb, bind_Ok, walkFrom_cons.
  cbn [walkStep truthy_node truthy_val get_prop own_prop]. rewrite Hm, Hrt, !bind_Ok.
  apply walk_null.
Qed.

(** A value is returned only when the walk ends on a string, and it is that
    string as a template literal, after [handleParams] when the call has
    params. *)
Lemma getValue_some (key : string) (data : option node) (args : option string)
    (keySeparator v : string) :
  getValue rt key data args keySeparator = Ok (Some v) →
  ∃ s, walk rt key data keySeparator = Ok (Some (Data (JStr s)))
       ∧ (v = quoteValue s ∨ ∃ a, args = Some a ∧ handleParams s a = Some v).
Proof.
  unfold getValue.
  destruct (walk rt key data keySeparator) as [[[[ | | |s| | ]|h]|]|];
    cbn; try discriminate.
  intros Hv. exists s. split; [done|]. destruct args as [a|].
  - destruct (Js.truthy a); [right; exists a; split; congruence | left; congruence].
  - left. congruence.
Qed.

End WalkFacts.

(** ** The claims on the helpers *)

Section HelperClaims.
Import Plugin.

Lemma find_eqb (x : string) (l : list string) :
  List.find (fun y => String.eqb y x) l = if decide (x ∈ l) then Some x else None.
Proof.
  induction l as [|y l IH]; cbn [List.find].
  - by rewrite decide_False by apply not_elem_of_nil.
  - destruct (String.eqb_spec y x) as [->|Hne].
    + by rewrite decide_True by (apply elem_of_cons; auto).
    + rewrite IH. destruct (decide (x ∈ l)).
      * by rewrite decide_True by (apply elem_of_cons; auto).
      * by rewrite decide_False by (rewrite elem_of_cons; intros [?|?]; done).
Qed.

(** The fourth param as a string literal, the text [x] between two quote
    characters, when no supported language is the empty string: the
    languages of the call are [x] alone when [x] is a supported language,
    and otherwise those of the options. *)
Lemma callLangs_fourth_param
    (opts : Options) (params : list string) (q : ascii) (x : string) :
  "" ∉ opts.(supportedLangs) →
  is_quote q = true →
  params !! 3 = Some (String q (x +:+ String q "")) →
  callLangs opts params
  = if decide (x ∈ opts.(supportedLangs)) then ([x], x)
    else (opts.(supportedLangs), opts.(defaultLang)).
Proof.
  intros Hne Hq H3. unfold callLangs, multilingual. rewrite H3.
  cbn [Js.truthy]. rewrite trimQuotes_literal by done. rewrite find_eqb.
  destruct (decide (x ∈ supportedLangs opts)) as [Hin|]; [|done].
  destruct x; [done | reflexivity].
Qed.

(** C7. [inline] takes as the language argument the fourth piece that
    [getParams] yields, which is not always the fourth argument of the
    call. In [$translate('k', { a: 1, b: { c: 2 } }, 3, 'it-IT')] the
    fourth argument is the supported language [it-IT], but [getParams]
    splits inside the nested object, the fourth piece is [3], and the call
    is inlined for all the languages with the default language of the
    options. With the params [{ a: 1 }] the fourth piece is ['it-IT'] and
    the call is inlined for [it-IT] alone. *)
Theorem C7_nested_params_hide_the_locale_argument (rt : Runtime) :
  getParams "'k', { a: 1, b: { c: 2 } }, 3, 'it-IT'"
  = ["'k'"; "{ a: 1"; "b: { c: 2 } }"; "3"; "'it-IT'"]
  ∧ callLangs Examples.options (getParams "'k', { a: 1, b: { c: 2 } }, 3, 'it-IT'")
    = (["it-IT"; "en-US"], "en-US")
  ∧ inlineCall "$lang" Examples.callSignature rt
      (Examples.dataset Examples.ciao Examples.hello) Examples.options
      "x = $translate('k', { a: 1, b: { c: 2 } }, 3, 'it-IT');" []
      "$translate('k', { a: 1, b: { c: 2 } }, 3, 'it-IT')"
    = Ok ("x = $lang === `it-IT` && `Ciao` || `Hello`;", [])
  ∧ callLangs Examples.options (getParams "'k', { a: 1 }, 3, 'it-IT'")
    = (["it-IT"], "it-IT")
  ∧ inlineCall "$lang" Examples.callSignature rt
      (Examples.dataset Examples.ciao Examples.hello) Examples.options
      "x = $translate('k', { a: 1 }, 3, 'it-IT');" []
      "$translate('k', { a: 1 }, 3, 'it-IT')"
    = Ok ("x = `Ciao`;", []).
Proof. repeat split; by vm_compute. Qed.

(** C5, as amended. Let the separator be not empty and occur in [s], first
    after the text [k] and before the text [rest]. The split of the
    extraction takes [k] as the key, and as the default value the part of
    [rest] before the next occurrence of the separator (all of [rest] when
    there is none). [getKey] of the inlining takes [k] too, from [s]
    between quotes. *)
Theorem C5_key_and_default_of_a_split
    (s sep k rest : string) (q : ascii) :
  sep ≠ "" →
  is_quote q = true →
  Js.find_first sep s = Some (k, rest) →
  s = k +:+ sep +:+ rest
  ∧ (∀ k' rest', s = k' +:+ sep +:+ rest' → Js.len k ≤ Js.len k')
  ∧ Extract.keyAndDefault s sep
    = (Some k, Some (match Js.find_first sep rest with
                     | Some (defaultValue, _) => defaultValue
                     | None => rest
                     end))
  ∧ getKey (String q (s +:+ String q "")) sep = Some k.
Proof.
  intros Hsep Hq Hf.
  destruct (split_first_occurrence s sep k rest Hsep Hf) as (tail & Hsplit & Htail).
  split; [by apply find_first_spec|].
  split; [intros k' rest'; by apply find_first_least with (post := rest)|].
  split.
  - unfold Extract.keyAndDefault. rewrite Hsplit. cbn [lookup list_lookup].
    f_equal. rewrite <- Htail. by destruct tail.
  - unfold getKey. by rewrite trimQuotes_literal, Hsplit.
Qed.

(** C2, as amended. [buildLine] writes, for every language of its list
    other than the default one and in the order of the list, the term
    [<globalLang> === `<lang>` && <value> || ], the language between
    backticks, and then the value of the default language. For the values
    of the example the line is [lang === `it-IT` && `Ciao` || `Hello`]. *)
Theorem C2_buildLine_writes_the_chain
    (globalLang : string) (values : gmap string string)
    (langs : list string) (d : string) :
  buildLine globalLang values langs d
  = chain globalLang (fun lang => values !! lang) langs d
  ∧ buildLine "lang" Examples.specValues ["it-IT"; "en-US"] "en-US"
    = "lang === `it-IT` && `Ciao` || `Hello`".
Proof. split; [apply buildLine_chain | by vm_compute]. Qed.

Lemma get_last (v : string) (c : ascii) :
  String.get (Js.len v) (v +:+ String c "") = Some c.
Proof. induction v as [|a v IH]; [done | by rewrite str_app_cons, len_cons]. Qed.

Lemma quoteValue_backquoted (value : string) : backquoted (quoteValue value).
Proof.
  unfold backquoted, quoteValue.
  change ("`" +:+ value +:+ "`") with (String "`" (value +:+ "`")).
  rewrite len_cons, len_app. change (Js.len "`") with 1.
  split; [done|]. split; [|lia].
  replace (S (Js.len value + 1) - 1) with (S (Js.len value)) by lia.
  cbn [String.get]. apply get_last.
Qed.

(** C10. A value that [getValue] returns begins and ends with a backtick;
    and [handleParams] returns, for every value and every params, a string
    that begins and ends with a backtick, never [undefined]. *)
Theorem C10_values_are_template_literals
    (rt : Runtime) (key : string) (data : option node) (args : option string)
    (keySeparator v : string) :
  getValue rt key data args keySeparator = Ok (Some v) →
  backquoted v
  ∧ ∀ value params, ∃ w, handleParams value params = Some w ∧ backquoted w.
Proof.
  assert (∀ value params, ∃ w, handleParams value params = Some w ∧ backquoted w) as Hh.
  { intros value params. eexists. split; [reflexivity|]. apply quoteValue_backquoted. }
  intros Hv. split; [|done]. unfold getValue in Hv.
  destruct (walk rt key data keySeparator) as [[[[ | | |s| | ]|h]|]|];
    cbn in Hv; try discriminate.
  destruct args as [a|].
  - destruct (Js.truthy a).
    + destruct (Hh s a) as (w & Hw & Hb). congruence.
    + injection Hv as <-. apply quoteValue_backquoted.
  - injection Hv as <-. apply quoteValue_backquoted.
Qed.

(** C6. The walk of [getValue] does not stop at a leaf: for the tree of the
    tests, [{ KEY1: 'key1', SUBKEY1: { AA: 'aa' } }], the key [KEY1.0] has
    no path in the tree, yet [getValue] returns the first character of the
    leaf [KEY1], in every runtime. The key [SUBKEY1] has no value; the key
    [SUBKEY1.BB] has none in a runtime where an object inherits no member
    [BB]; and no key has a value in a tree that is absent. *)
Theorem C6_getValue_reads_inside_a_leaf (rt : Runtime) :
  getValue rt "KEY1.0" (Some (Data Examples.testTree)) None "." = Ok (Some "`k`")
  ∧ getValue rt "SUBKEY1" (Some (Data Examples.testTree)) None "." = Ok None
  ∧ (rt (Data (JObj {[ "AA" := JStr "aa" ]})) "BB" = Ok None →
     getValue rt "SUBKEY1.BB" (Some (Data Examples.testTree)) None "." = Ok None)
  ∧ getValue rt "KEY1" (Some (Data Examples.testTree)) None "." = Ok (Some "`key1`")
  ∧ getValue rt "KEY1" None None "." = Ok None.
Proof.
  repeat split; try by vm_compute.
  intros H. unfold getValue, walk.
  replace (Js.split "SUBKEY1.BB" ".") with (["SUBKEY1"] ++ "BB" :: [])
    by (by vm_compute).
  rewrite (walk_missing_entry rt ["SUBKEY1"] [] "BB" _ {[ "AA" := JStr "aa" ]});
    [done | by vm_compute | by vm_compute | done].
Qed.

(** C8. [getParams] splits inside a string between backticks: the one
    argument [`a, b`] comes out as two params. The argument list of the
    specification comes out as its two arguments. *)
Theorem C8_getParams_splits_inside_backticks :
  getParams "`a, b`" = ["`a"; "b`"]
  ∧ getParams Examples.specArgs = Examples.specParams.
Proof. by vm_compute. Qed.

End HelperClaims.


(** ** Checks on small inputs *)

Section Checks.
Import Plugin.

Example getParams_four_arguments :
  getParams "'key', { name: 'x' }, 3, 'it-IT'"
  = ["'key'"; "{ name: 'x' }"; "3"; "'it-IT'"].
Proof. by vm_compute. Qed.

Example getParams_collapses_spaces : getParams "'a' ,   'b'" = ["'a'"; "'b'"].
Proof. by vm_compute. Qed.

Example getParams_only_a_comma : getParams "," = [].
Proof. by vm_compute. Qed.

Example getParams_nested_object :
  getParams "{ a: 1, b: { c: 2 } }" = ["{ a: 1"; "b: { c: 2 } }"].
Proof. by vm_compute. Qed.

Example getParams_flat_object :
  getParams "'key', { a: 1, b: 2 }" = ["'key'"; "{ a: 1, b: 2 }"].
Proof. by vm_compute. Qed.

Example handleParams_placeholders :
  handleParams "Hello {{name}} and {{ name }} {{other}}" "{ name: 'Qwik' }"
  = Some "`Hello ${'Qwik'} and ${'Qwik'} {{other}}`".
Proof. by vm_compute. Qed.

Example trimQuotes_inner_quote : trimQuotes "a'b" = "a'b".
Proof. by vm_compute. Qed.

Example dynamic_identifier :
  Regex.test paramNamesRe "params" = false
  ∧ Regex.test paramNamesRe "{ name  : 'Qwik' }" = true.
Proof. by vm_compute. Qed.

Example split_examples :
  Js.split "a.b.c" "." = ["a"; "b"; "c"]
  ∧ Js.split "" "." = [""]
  ∧ Js.split "abc" "" = ["a"; "b"; "c"]
  ∧ Js.split "a@@@b" "@@" = ["a"; "@b"].
Proof. by vm_compute. Qed.

Example replace_patterns :
  Js.replace "a-X-b" "X" "[$&|$$|$1]" = "a-[X|$|$1]-b"
  ∧ Js.replace "a-X-b-X" "X" "y" = "a-y-b-X"
  ∧ Js.replace "a-b" "X" "y" = "a-b".
Proof. by vm_compute. Qed.

Example getValue_of_the_tests (rt : Runtime) :
  getValue rt "KEY1" (Some (Data Examples.testTree)) None "." = Ok (Some "`key1`")
  ∧ getValue rt "SUBKEY1.AA" (Some (Data Examples.testTree)) None "." = Ok (Some "`aa`").
Proof. by vm_compute. Qed.

(** The members that a value inherits are found: in the runtime of the
    examples the empty object has the constructor [Object], whose name is a
    string, and whose accessor [caller] throws. *)
Example getValue_inherited_members :
  getValue Examples.runtime "constructor.name" (Some (Data Examples.empty)) None "."
  = Ok (Some "`Object`")
  ∧ getValue Examples.runtime "constructor.caller" (Some (Data Examples.empty)) None "."
    = TypeError
  ∧ getValue Examples.runtime "SUBKEY1.constructor.name"
      (Some (Data Examples.testTree)) None "."
    = Ok (Some "`Object`")
  ∧ getValue Examples.runtime "KEY1.constructor.name"
      (Some (Data Examples.testTree)) None "."
    = Ok (Some "`String`").
Proof. by vm_compute. Qed.

(** A conditional expression as the second param has a word before a
    colon: the call is not taken as one with dynamic params, and it is
    inlined. *)
Example conditional_params_are_inlined (rt : Runtime) :
  getParams "'k', c ? a : b" = ["'k'"; "c ? a : b"]
  ∧ dynamicParams (getParams "'k', c ? a : b") = false
  ∧ inlineCall "$lang" Examples.callSignature rt
      (Examples.dataset Examples.ciao Examples.hello) Examples.options
      "x = $translate('k', c ? a : b);" [] "$translate('k', c ? a : b)"
    = Ok ("x = $lang === `it-IT` && `Ciao` || `Hello`;", []).
Proof. by vm_compute. Qed.

End Checks.

(** ** The claims at concrete inputs *)

Section Instances.
Import Plugin Examples.

(** The values of the key [k] in the dataset with [{}] for [it-IT] and with
    [en] for [en-US]. *)
Lemma values_onlyEnglish (v : string) (lang : string) :
  lang = "en-US" ∨ lang ∈ ["it-IT"; "en-US"] →
  valueIn runtime (dataset empty (JObj {[ "k" := JStr v ]})) options "k"
    (getParams "'k'") lang
  = Ok (onlyEnglish v lang).
Proof.
  rewrite !elem_of_cons, elem_of_nil.
  intros [-> | [-> | [-> | []]]]; by vm_compute.
Qed.

(** C1 at a concrete input: the languages are [it-IT] and [en-US], the
    default one is [en-US], and the key [k] has the value [Hello] in
    [en-US] and none in [it-IT]. The chain has a term for [it-IT]. *)
Lemma C1_witness :
  let value := onlyEnglish "Hello" in
  inlineCall "$lang" (signature "'k'") runtime (dataset empty hello) options
    "x = $translate('k');" [] "$translate('k')"
  = Ok (Js.replace "x = $translate('k');" "$translate('k')"
          (chain "$lang" value ["it-IT"; "en-US"] "en-US"),
        [] ++ missingNotices "k" value ["it-IT"; "en-US"] "en-US")
  ∧ ∀ lang, lang ∈ ["it-IT"; "en-US"] → lang ≠ "en-US" → value lang = None →
      (lang +:+ " - missing value for key: " +:+ "k")
        ∈ missingNotices "k" value ["it-IT"; "en-US"] "en-US"
      ∧ ∃ before after,
          chain "$lang" value ["it-IT"; "en-US"] "en-US"
          = before +:+ ("$lang" +:+ " === `" +:+ lang +:+ "` && undefined || ")
            +:+ after.
Proof.
  apply (C1_missing_locale_keeps_its_term "$lang" (signature "'k'") runtime
           (dataset empty hello) options "x = $translate('k');" []
           "$translate('k')" "'k'" "'k'" "k" "`Hello`" ["it-IT"; "en-US"] "en-US"
           (onlyEnglish "Hello"));
    try (vm_compute; reflexivity).
  apply (values_onlyEnglish "Hello").
Defined.

(** The claim C1 fails at that input: the value of [k] is missing in
    [it-IT], the code that [inline] writes has a term for [it-IT], and the
    chain without the languages that miss a value is another text. *)
Lemma C1_counterexample :
  let value := onlyEnglish "Hello" in
  valueIn runtime (dataset empty hello) options "k" (getParams "'k'") "it-IT" = Ok None
  ∧ valueIn runtime (dataset empty hello) options "k" (getParams "'k'") "en-US"
    = Ok (Some "`Hello`")
  ∧ inlineCall "$lang" (signature "'k'") runtime (dataset empty hello) options
      "x = $translate('k');" [] "$translate('k')"
    = Ok ("x = $lang === `it-IT` && undefined || `Hello`;",
          ["it-IT - missing value for key: k"])
  ∧ chainOmittingMissing "$lang" value ["it-IT"; "en-US"] "en-US" = "`Hello`"
  ∧ "$lang === `it-IT` && undefined || `Hello`"
    ≠ chainOmittingMissing "$lang" value ["it-IT"; "en-US"] "en-US".
Proof. by vm_compute. Qed.

(** The claim C2 fails at the input of its example: the language is written
    between backticks, not between single quotes. *)
Lemma C2_counterexample :
  chainSingleQuoted "lang" (fun lang => specValues !! lang) ["it-IT"; "en-US"] "en-US"
  = "lang === 'it-IT' && `Ciao` || `Hello`"
  ∧ buildLine "lang" specValues ["it-IT"; "en-US"] "en-US"
    ≠ "lang === 'it-IT' && `Ciao` || `Hello`".
Proof. by vm_compute. Qed.


(** C4 at a concrete input with one match, which is resolved. *)
Lemma C4_witness :
  ∃ matches,
    matcher ["$translate('k')"] "x = $translate('k');" = Some matches
    ∧ rewritesFirst (resolvedCall (signature "'k'") runtime (dataset ciao hello) options)
        matches "x = $translate('k');" "x = $lang === `it-IT` && `Ciao` || `Hello`;"
    ∧ ((∀ fn, fn ∈ matches
              → ¬ resolvedCall (signature "'k'") runtime (dataset ciao hello) options fn)
       → "x = $lang === `it-IT` && `Ciao` || `Hello`;" = "x = $translate('k');")
    ∧ ∀ fn c t c' t',
        ¬ resolvedCall (signature "'k'") runtime (dataset ciao hello) options fn →
        inlineCall "$lang" (signature "'k'") runtime (dataset ciao hello) options c t fn
        = Ok (c', t') →
        c' = c.
Proof.
  apply (C4_code_outside_the_replaced_occurrences_is_kept "$lang"
           (matcher ["$translate('k')"]) (signature "'k'") runtime
           (dataset ciao hello) options "x = $translate('k');"
           "x = $lang === `it-IT` && `Ciao` || `Hello`;" []).
  vm_compute; reflexivity.
Defined.

(** The claim C4 fails at a code with two matches: a call with dynamic
    params, whose second argument is the call [$translate('k')], and then
    the call [$translate('k')] on its own. The first match is not resolved
    and the second is; [inline] puts the chain in the place of the first
    occurrence of the text [$translate('k')], which lies inside the dynamic
    call: the text of the dynamic call is no longer in the output, and the
    resolved call keeps its text. The claim fails too at a call whose
    params are a conditional expression: they are no literal, and the call
    is replaced. *)
Lemma C4_counterexample :
  let dynamicCall := "$translate('x', $translate('k'))" in
  let code := "a = $translate('x', $translate('k')); b = $translate('k');" in
  callSignature dynamicCall = Some "'x', $translate('k')"
  ∧ dynamicParams (getParams "'x', $translate('k')") = true
  ∧ callSignature "$translate('k')" = Some "'k'"
  ∧ valueIn runtime (dataset ciao hello) options "k" (getParams "'k'") "en-US"
    = Ok (Some "`Hello`")
  ∧ inline "$lang" (matcher [dynamicCall; "$translate('k')"]) callSignature runtime
      (dataset ciao hello) options code
    = Ok (Some "a = $translate('x', $lang === `it-IT` && `Ciao` || `Hello`); b = $translate('k');",
          [])
  ∧ Js.find_first dynamicCall
      "a = $translate('x', $lang === `it-IT` && `Ciao` || `Hello`); b = $translate('k');"
    = None
  ∧ Js.find_first dynamicCall code = Some ("a = ", "; b = $translate('k');")
  ∧ callSignature "$translate('k', c ? a : b)" = Some "'k', c ? a : b"
  ∧ getParams "'k', c ? a : b" = ["'k'"; "c ? a : b"]
  ∧ inline "$lang" (matcher ["$translate('k', c ? a : b)"]) callSignature runtime
      (dataset ciao hello) options "x = $translate('k', c ? a : b);"
    = Ok (Some "x = $lang === `it-IT` && `Ciao` || `Hello`;", []).
Proof. by vm_compute. Qed.

(** C5 at a concrete input with two occurrences of the separator. *)
Lemma C5_witness :
  "k@@a@@b" = "k" +:+ "@@" +:+ "a@@b"
  ∧ (∀ k' rest', "k@@a@@b" = k' +:+ "@@" +:+ rest' → Js.len "k" ≤ Js.len k')
  ∧ Extract.keyAndDefault "k@@a@@b" "@@"
    = (Some "k", Some (match Js.find_first "@@" "a@@b" with
                       | Some (defaultValue, _) => defaultValue
                       | None => "a@@b"
                       end))
  ∧ getKey (String "'" ("k@@a@@b" +:+ String "'" "")) "@@" = Some "k".
Proof.
  apply (C5_key_and_default_of_a_split "k@@a@@b" "@@" "k" "a@@b" "'");
    [discriminate | vm_compute; reflexivity | vm_compute; reflexivity].
Defined.

(** The claim C5 fails at that input: the text after the first occurrence
    of the separator is [a@@b], and the default value is [a]. *)
Lemma C5_counterexample :
  Js.find_first "@@" "k@@a@@b" = Some ("k", "a@@b")
  ∧ Extract.keyAndDefault "k@@a@@b" "@@" = (Some "k", Some "a")
  ∧ (Extract.keyAndDefault "k@@a@@b" "@@").2 ≠ Some "a@@b".
Proof. by vm_compute. Qed.

(** C9 at a concrete input: the key [k] has the empty string as its value
    in [en-US] and no value in [it-IT]. *)
Lemma C9_witness :
  let value := onlyEnglish "" in
  getValue runtime "k" (Some (Data blank)) (getParams "'k'" !! 1)
    options.(keySeparator) = Ok (Some "``")
  ∧ value "en-US" = Some "``"
  ∧ "x = $translate('k');" = "x = " +:+ "$translate('k')" +:+ ";"
  ∧ chain "$lang" value ["it-IT"; "en-US"] "en-US"
    = chainTerms "$lang" value ["it-IT"; "en-US"] "en-US" +:+ "``"
  ∧ inlineCall "$lang" (signature "'k'") runtime (dataset empty blank) options
      "x = $translate('k');" [] "$translate('k')"
    = Ok ("x = "
          +:+ (Js.get_substitution "$translate('k')" "x = " ";"
                 (chainTerms "$lang" value ["it-IT"; "en-US"] "en-US")
               +:+ "``")
          +:+ ";",
          [] ++ missingNotices "k" value ["it-IT"; "en-US"] "en-US").
Proof.
  apply (C9_empty_leaf_is_inlined "$lang" (signature "'k'") runtime
           (dataset empty blank) options "x = $translate('k');" []
           "$translate('k')" "'k'" "'k'" "k" ["it-IT"; "en-US"] "en-US"
           (Some (Data blank)) (onlyEnglish "") "x = " ";");
    try (vm_compute; reflexivity).
  apply (values_onlyEnglish "").
Defined.

(** C10 at a concrete input. *)
Lemma C10_witness :
  backquoted "`Hello`"
  ∧ ∀ value params, ∃ w, handleParams value params = Some w ∧ backquoted w.
Proof.
  apply (C10_values_are_template_literals runtime "k" (Some (Data hello)) None "."
           "`Hello`").
  vm_compute; reflexivity.
Defined.

End Instances.

(** * Further properties of the plugin *)

(** ** [trimQuotes], [getKey] and the languages of a call *)

Section TrimFacts.
Import Regex Plugin.

#[local] Arguments Js.len : simpl never.
#[local] Arguments Js.take : simpl never.
#[local] Arguments Nat.eqb : simpl never.
#[local] Arguments Nat.ltb : simpl never.
#[local] Arguments Nat.sub : simpl never.
#[local] Arguments is_quote : simpl never.

Lemma exec_trim_nonquote (n0 : nat) (a : ascii) (t : string) :
  is_quote a = false → exec_at trimQuotesRe n0 (String a t) = None.
Proof.
  intros Hq. unfold exec_at, trimQuotesRe.
  change (one_of quotes) with (Chr is_quote). simpl. rewrite Hq.
  by destruct (Js.len (String a t) =? n0).
Qed.

(** After the first character only a quote at the very end is removed. *)
Lemma replace_go_trim_rest (t : string) (fuel n0 : nat) :
  Js.len t < fuel → Js.len t < n0 →
  replace_go fuel trimQuotesRe (fun _ _ => "") n0 t = stripLastQuote t.
Proof.
  revert fuel. induction t as [|b u IH]; intros fuel Hf Hn.
  - destruct fuel as [|fuel]; [lia|]. rewrite replace_go_S. cbv zeta.
    by rewrite exec_trim_empty by (change (Js.len "") with 0 in Hn; lia).
  - rewrite len_cons in Hf, Hn. destruct fuel as [|fuel]; [lia|].
    rewrite replace_go_S. cbv zeta.
    rewrite exec_trim_inner by (rewrite len_cons; lia).
    destruct u as [|c u].
    + change (Js.len "") with 0 in *. destruct fuel as [|fuel]; [lia|].
      rewrite (replace_go_S fuel _ _ _ ""). cbv zeta.
      rewrite exec_trim_empty by lia.
      cbn [stripLastQuote]. destruct (is_quote b); [|done].
      change (Js.len "" <? Js.len (String b "")) with true. cbv iota.
      rewrite replace_go_S. cbv zeta. by rewrite exec_trim_empty by lia.
    + rewrite IH by lia. reflexivity.
Qed.

(** X1. [trimQuotes] removes one quote character at the start of its
    argument, if there is one, and then one quote character at the end of
    what is left, if there is one; every other character stays, the quote
    characters inside included. *)
Theorem X1_trimQuotes_strips_one_quote_at_each_end (value : string) :
  trimQuotes value = stripQuotes value.
Proof.
  destruct value as [|a t]; [reflexivity|].
  unfold trimQuotes, replace_all. rewrite replace_go_S. cbv zeta.
  unfold stripQuotes. destruct (is_quote a) eqn:Hq.
  - destruct (exec_trim_first (Js.len (String a t)) a t Hq eq_refl) as [c ->].
    rewrite (proj2 (Nat.ltb_lt _ _)) by (rewrite len_cons; lia).
    match goal with |- "" +:+ ?r = _ => change (r = stripLastQuote t) end.
    apply replace_go_trim_rest; rewrite len_cons; lia.
  - rewrite exec_trim_nonquote by done.
    rewrite replace_go_trim_rest by (rewrite len_cons; lia).
    destruct t; [|reflexivity]. cbn [stripLastQuote]. by rewrite Hq.
Qed.

End TrimFacts.

Section KeyFacts.
Import Plugin.

(** The text before the first occurrence of a separator has no occurrence
    of it. *)
Lemma before_first_occurrence (sep s k rest : string) :
  sep ≠ "" → Js.find_first sep s = Some (k, rest) → Js.find_first sep k = None.
Proof.
  intros Hsep Hf. destruct (Js.find_first sep k) as [[a b]|] eqn:E; [|done].
  apply find_first_spec in E. pose proof (find_first_spec _ _ _ _ Hf) as Hs.
  assert (s = a +:+ sep +:+ (b +:+ sep +:+ rest)) as Hs'.
  { rewrite Hs, E. by rewrite !str_app_assoc. }
  pose proof (find_first_least _ _ _ _ _ _ Hf Hs') as Hle.
  rewrite E, !len_app in Hle. destruct sep; [done|]. rewrite len_cons in Hle. lia.
Qed.

(** X2. With a separator that is not empty, [getKey] always returns a key:
    the key is a prefix of the parameter without its quotes, the separator
    does not occur in it, and it is the whole parameter without its quotes
    when the separator does not occur there. *)
Theorem X2_getKey_is_free_of_the_separator (param sep : string) :
  sep ≠ "" →
  ∃ key rest,
    getKey param sep = Some key
    ∧ trimQuotes param = key +:+ rest
    ∧ ¬ occursIn sep key
    ∧ (¬ occursIn sep (trimQuotes param) → key = trimQuotes param).
Proof.
  intros Hsep. unfold getKey, occursIn.
  destruct (Js.find_first sep (trimQuotes param)) as [[k rest]|] eqn:E.
  - destruct (split_first_occurrence _ _ _ _ Hsep E) as (tail & -> & _).
    exists k, (sep +:+ rest). split; [done|]. split; [by apply find_first_spec|].
    split.
    + rewrite (before_first_occurrence _ _ _ _ Hsep E). by intros [? ?].
    + intros H. destruct H. by eexists.
  - rewrite split_no_occurrence by done.
    exists (trimQuotes param), "". split; [done|].
    split; [by rewrite str_app_nil_r|]. split; [|done].
    rewrite E. by intros [? ?].
Qed.

(** X3. When the default language of the options is one of the supported
    languages, the languages of a call are either the supported languages
    with that default, or one supported language alone, which is then the
    default of the call; in both cases the default of the call is one of
    its languages. *)
Theorem X3_callLangs_keeps_the_default_among_the_languages
    (opts : Options) (params : list string) :
  opts.(defaultLang) ∈ opts.(supportedLangs) →
  (callLangs opts params).2 ∈ (callLangs opts params).1
  ∧ (∀ lang, lang ∈ (callLangs opts params).1 → lang ∈ opts.(supportedLangs))
  ∧ (callLangs opts params = (opts.(supportedLangs), opts.(defaultLang))
     ∨ (callLangs opts params).1 = [(callLangs opts params).2]).
Proof.
  intros Hd. unfold callLangs.
  destruct (multilingual (params !! 3) (supportedLangs opts)) as [l|] eqn:E;
    [|by auto].
  destruct (Js.truthy l); [|by auto]. cbn [fst snd].
  split; [apply list_elem_of_here|]. split; [|by right].
  intros lang Hin. apply list_elem_of_singleton in Hin as ->.
  unfold multilingual in E. destruct (params !! 3) as [p|]; [|done].
  destruct (Js.truthy p); [|done].
  apply find_some in E as [Hin _]. by apply list_elem_of_In.
Qed.

(** The fourth parameter as a literal that names a supported language. *)
Lemma callLangs_literal (opts : Options) (params : list string) (q : ascii) (x : string) :
  is_quote q = true → x ≠ "" → x ∈ opts.(supportedLangs) →
  params !! 3 = Some (String q (x +:+ String q "")) →
  callLangs opts params = ([x], x).
Proof.
  intros Hq Hx Hin H3. unfold callLangs, multilingual. rewrite H3.
  cbn [Js.truthy]. rewrite trimQuotes_literal by done. rewrite find_eqb.
  rewrite decide_True by done. by destruct x.
Qed.

End KeyFacts.

(** ** More on one call *)

Section CallFacts.
Import Plugin.

Variable globalLang : string.
Variable translateFnSignatureMatch : string → option string.
Variable rt : Runtime.
Variable translation : gmap string jsval.
Variable opts : Options.

(** X4. Let the fourth parameter of a call with static params be a literal
    that names a supported language, and let the key have a value in that
    language. The call is replaced by that value alone, without a test on
    the global language, and the trace stays as it is, whatever the other
    languages have for the key. *)
Theorem X4_language_argument_inlines_one_value
    (code : string) (trace : list string)
    (originalFn args param0 key value x : string) (q : ascii) :
  translateFnSignatureMatch originalFn = Some args →
  Js.truthy args = true →
  dynamicParams (getParams args) = false →
  getParams args !! 0 = Some param0 →
  getKey param0 opts.(keyValueSeparator) = Some key →
  is_quote q = true → x ≠ "" → x ∈ opts.(supportedLangs) →
  getParams args !! 3 = Some (String q (x +:+ String q "")) →
  valueIn rt translation opts key (getParams args) x = Ok (Some value) →
  inlineCall globalLang translateFnSignatureMatch rt translation opts code trace originalFn
  = Ok (Js.replace code originalFn value, trace).
Proof.
  intros Hs Ht Hdyn H0 Hkey Hq Hx Hin H3 Hv.
  rewrite (inlineCall_args _ _ _ _ _ _ _ _ args) by done.
  rewrite (inlineArgs_resolved _ _ _ _ _ _ _ _ param0 key value [x] x
             (fun _ => Some value));
    try done.
  - unfold chain, missingNotices.
    rewrite filter_cons, decide_False, filter_nil by (by intros ?).
    cbn [map concatStrings foldr]. by rewrite filter_nil, app_nil_r.
  - by apply (callLangs_literal _ _ q).
  - intros lang [-> | ->%list_elem_of_singleton]; done.
Qed.

Lemma getKey_is_Some (param sep : string) : sep ≠ "" → is_Some (getKey param sep).
Proof.
  intros Hsep. unfold getKey.
  destruct (Js.find_first sep (trimQuotes param)) as [[k rest]|] eqn:E.
  - by destruct (split_first_occurrence _ _ _ _ Hsep E) as (tail & -> & _).
  - by rewrite split_no_occurrence.
Qed.

(** The loop over the other languages throws exactly when [getValue] throws
    for one of them. *)
Lemma otherValues_TypeError (key : string) (params : list string) (l : list string)
    (st : gmap string string * list string) :
  fold_left (fun acc lang => st ← acc; otherValue rt translation opts key params st lang)
    l (Ok st) = TypeError
  ↔ ∃ lang, lang ∈ l ∧ valueIn rt translation opts key params lang = TypeError.
Proof.
  revert st. induction l as [|a l IH]; intros [values trace]; cbn [fold_left].
  - split; [discriminate|]. intros (lang & Hin & _). by apply elem_of_nil in Hin.
  - rewrite bind_Ok, otherValue_eq.
    destruct (valueIn rt translation opts key params a) as [[v|]|] eqn:Ea.
    + rewrite IH. split; intros (lang & Hin & Hl); exists lang.
      * split; [apply elem_of_cons; auto | done].
      * apply elem_of_cons in Hin as [->|Hin]; [congruence | done].
    + rewrite IH. split; intros (lang & Hin & Hl); exists lang.
      * split; [apply elem_of_cons; auto | done].
      * apply elem_of_cons in Hin as [->|Hin]; [congruence | done].
    + rewrite fold_TypeError. split; [|done]. intros _. exists a.
      split; [apply elem_of_cons; auto | done].
Qed.

(** X6. With a key/value separator that is not empty, a turn of the loop of
    [inline] throws a [TypeError] exactly when the call has a signature
    that is not empty and params that are not dynamic, and either
    [getParams] yields no param at all, or [getValue] throws for the
    default language of the call, or the default language has a value and
    [getValue] throws for another language of the call. *)
Theorem X6_TypeError_of_a_turn
    (code : string) (trace : list string) (originalFn : string) :
  opts.(keyValueSeparator) ≠ "" →
  inlineCall globalLang translateFnSignatureMatch rt translation opts code trace originalFn
  = TypeError
  ↔ ∃ args,
      translateFnSignatureMatch originalFn = Some args
      ∧ Js.truthy args = true
      ∧ dynamicParams (getParams args) = false
      ∧ (getParams args = []
         ∨ ∃ param0 key,
             getParams args !! 0 = Some param0
             ∧ getKey param0 opts.(keyValueSeparator) = Some key
             ∧ (valueIn rt translation opts key (getParams args)
                  (callLangs opts (getParams args)).2 = TypeError
                ∨ (∃ v, valueIn rt translation opts key (getParams args)
                          (callLangs opts (getParams args)).2 = Ok (Some v))
                  ∧ ∃ lang, lang ∈ (callLangs opts (getParams args)).1
                            ∧ lang ≠ (callLangs opts (getParams args)).2
                            ∧ valueIn rt translation opts key (getParams args) lang
                              = TypeError)).
Proof.
  intros Hsep. unfold inlineCall.
  destruct (translateFnSignatureMatch originalFn) as [args|] eqn:Hs.
  2:{ split; [discriminate|]. intros (a & Ha & _). discriminate. }
  destruct (Js.truthy args) eqn:Ht.
  2:{ split; [discriminate|]. intros (a & [= <-] & Ht' & _). congruence. }
  unfold inlineArgs.
  destruct (dynamicParams (getParams args)) eqn:Hdyn.
  { split; [discriminate|]. intros (a & [= <-] & _ & Hd' & _). congruence. }
  destruct (callLangs opts (getParams args)) as [langs d] eqn:Hlangs.
  destruct (getParams args !! 0) as [param0|] eqn:H0.
  2:{ split; [|done]. intros _. exists args. repeat split; auto. left.
      by destruct (getParams args). }
  destruct (getKey_is_Some param0 _ Hsep) as [key Hkey]. rewrite Hkey. cbv zeta.
  assert (getParams args ≠ []) as Hne by (by destruct (getParams args)).
  destruct (valueIn rt translation opts key (getParams args) d) as [[v|]|] eqn:Hd.
  - rewrite bind_Ok, (valueIn_truthy _ _ _ _ _ _ _ Hd). unfold otherValues.
    destruct (fold_left _ _ _) as [[values tr]|] eqn:E.
    + split; [discriminate|].
      intros (a & [= <-] & _ & _ & [Hnil | (p & k & Hp0 & Hk & Hv)]); [done|].
      assert (p = param0) as -> by congruence.
      assert (k = key) as -> by congruence.
      rewrite Hlangs in Hv. cbn [fst snd] in Hv.
      destruct Hv as [Hv | (_ & lang & Hin & Hne' & Hl)]; [congruence|].
      assert (fold_left
                (fun acc lang => st ← acc;
                   otherValue rt translation opts key (getParams args) st lang)
                (filter (fun x => x ≠ d) langs) (Ok (<[d := v]> ∅, trace))
              = TypeError) as E'.
      { apply otherValues_TypeError. exists lang. split; [|done].
        by apply list_elem_of_filter. }
      congruence.
    + split; [|done]. intros _. exists args. repeat split; auto.
      right. exists param0, key. repeat split; auto. right.
      rewrite Hlangs. cbn [fst snd].
      split; [by exists v|].
      apply otherValues_TypeError in E as (lang & [Hne' Hin]%list_elem_of_filter & Hl).
      by exists lang.
  - rewrite bind_Ok. split; [discriminate|].
    intros (a & [= <-] & _ & _ & [Hnil | (p & k & Hp0 & Hk & Hv)]); [done|].
    assert (p = param0) as -> by congruence.
    assert (k = key) as -> by congruence.
    rewrite Hlangs in Hv. cbn [fst snd] in Hv.
    destruct Hv as [Hv | [[v Hv] _]]; congruence.
  - split; [|done]. intros _. exists args. repeat split; auto.
    right. exists param0, key. repeat split; auto. left.
    by rewrite Hlangs.
Qed.

End CallFacts.

(** ** More on [getValue] *)

Section ValueFacts.
Import Plugin.

(** X11. [getValue] gives no value when the walk of the key reaches an
    object whose entry for the next segment is [null], or which has no
    entry for it and inherits no member of that name, whatever the segments
    after it are. *)
Theorem X11_getValue_stops_at_a_missing_entry
    (rt : Runtime) (key keySeparator cur : string) (before after : list string)
    (data : option node) (args : option string) (m : gmap string jsval) :
  Js.split key keySeparator = before ++ cur :: after →
  walkFrom rt before data = Ok (Some (Data (JObj m))) →
  m !! cur = Some JNull ∨ (m !! cur = None ∧ rt (Data (JObj m)) cur = Ok None) →
  getValue rt key data args keySeparator = Ok None.
Proof.
  intros Hsplit Hb Hm. unfold getValue, walk. rewrite Hsplit.
  destruct Hm as [Hm | [Hm Hrt]].
  - rewrite walkFrom_app, Hb, bind_Ok, walkFrom_cons.
    cbn [walkStep truthy_node truthy_val get_prop own_prop].
    by rewrite Hm, !bind_Ok, walk_null.
  - by rewrite (walk_missing_entry rt before after cur data m).
Qed.

End ValueFacts.

(** ** Repetitions *)

Section StarFacts.
Import Regex.

Lemma rmatch_Star {A : Type} (n0 : nat) (r : re) (t : string) (c : caps)
    (k : string → caps → option A) :
  rmatch n0 (Star r) t c k
  = starLoop (fun t c k => rmatch n0 r t c k) k (Js.len t) t c.
Proof. reflexivity. Qed.

(** A repetition of a character class stops at once in front of a
    character outside the class, and at the end of the input. *)
Lemma starLoop_stop {A : Type} (n0 : nat) (p : ascii → bool) (fuel : nat)
    (t : string) (c : caps) (k : string → caps → option A) :
  match t with "" => True | String a _ => p a = false end →
  starLoop (fun t c k => rmatch n0 (Chr p) t c k) k fuel t c = k t c.
Proof.
  intros Ht. destruct fuel as [|fuel]; [done|]. cbn [starLoop rmatch].
  destruct t as [|a t]; [done|]. by rewrite Ht.
Qed.

(** A repetition of a character class takes a run of characters of the
    class that ends in front of a character outside it, when what follows
    the repetition matches there. *)
Lemma starLoop_chars {A : Type} (n0 : nat) (p : ascii → bool) (x t : string)
    (fuel : nat) (c : caps) (k : string → caps → option A) :
  allChars p x = true →
  match t with "" => True | String a _ => p a = false end →
  Js.len (x +:+ t) ≤ fuel →
  is_Some (k t c) →
  starLoop (fun t c k => rmatch n0 (Chr p) t c k) k fuel (x +:+ t) c = k t c.
Proof.
  intros Hx Ht. revert fuel. induction x as [|a x IH]; intros fuel Hf [r Hk].
  - rewrite str_app_nil_l. by apply starLoop_stop.
  - cbn [allChars] in Hx. apply andb_true_iff in Hx as [Ha Hx].
    rewrite str_app_cons, len_cons in *. destruct fuel as [|fuel]; [lia|].
    cbn [starLoop rmatch]. rewrite Ha.
    rewrite (proj2 (Nat.ltb_lt _ _)) by (rewrite len_cons; lia).
    rewrite IH by (eauto || lia). by rewrite Hk.
Qed.

Lemma take_app_len (x t : string) : Js.take (Js.len x) (x +:+ t) = x.
Proof.
  induction x as [|a x IH]; [by destruct t|].
  rewrite str_app_cons, len_cons. cbn [Js.take]. by rewrite IH.
Qed.

Lemma take_all (s : string) : Js.take (Js.len s) s = s.
Proof. rewrite <- (str_app_nil_r s) at 2. apply take_app_len. Qed.

End StarFacts.

(** ** Placeholders *)

Section PlaceholderFacts.
Import Regex Plugin.

#[local] Arguments Js.len : simpl never.
#[local] Arguments Js.take : simpl never.
#[local] Arguments Nat.ltb : simpl never.
#[local] Arguments Nat.sub : simpl never.

(** No placeholder starts at a character other than an opening brace. *)
Lemma exec_placeholder_other (n0 : nat) (t : string) :
  match t with "" => True | String a _ => isNot "{" a = true end →
  exec_at placeholderRe n0 t = None.
Proof.
  destruct t as [|a t]; [done|]. unfold isNot. intros Ha.
  unfold exec_at, placeholderRe, lit. cbn [rmatch].
  rewrite Ascii.eqb_sym. by destruct (Ascii.eqb a "{").
Qed.

(** The replacement of the placeholders goes over a text without an opening
    brace and leaves it as it is. *)
Lemma replace_go_no_brace (f : string → caps → string) (pre t : string)
    (fuel n0 : nat) :
  allChars (isNot "{") pre = true → Js.len (pre +:+ t) < fuel →
  replace_go fuel placeholderRe f n0 (pre +:+ t)
  = pre +:+ replace_go (fuel - Js.len pre) placeholderRe f n0 t.
Proof.
  revert fuel. induction pre as [|a pre IH]; intros fuel Hp Hf.
  - rewrite !str_app_nil_l. change (Js.len "") with 0. by rewrite Nat.sub_0_r.
  - cbn [allChars] in Hp. apply andb_true_iff in Hp as [Ha Hp].
    rewrite str_app_cons, len_cons in *. destruct fuel as [|fuel]; [lia|].
    rewrite replace_go_S. cbv zeta. rewrite exec_placeholder_other by done.
    rewrite IH by (done || lia). reflexivity.
Qed.

Lemma replace_all_no_brace (f : string → caps → string) (value : string) :
  allChars (isNot "{") value = true → replace_all placeholderRe f value = value.
Proof.
  intros Hv. unfold replace_all.
  pose proof (replace_go_no_brace f value "" (S (Js.len value)) (Js.len value) Hv) as H.
  rewrite str_app_nil_r in H. rewrite H by lia.
  replace (S (Js.len value) - Js.len value) with 1 by lia.
  apply str_app_nil_r.
Qed.

(** X8. A value without an opening brace has no placeholder: whatever the
    params are, [handleParams] returns it between backticks and otherwise
    as it is. *)
Theorem X8_handleParams_keeps_a_value_without_braces (value args : string) :
  allChars (isNot "{") value = true →
  handleParams value args = Some (quoteValue value).
Proof.
  intros Hv. unfold handleParams.
  assert (∀ l, fold_left handleParam l value = value) as ->; [|done].
  induction l as [|p l IH]; cbn [fold_left]; [done|].
  assert (handleParam value p = value) as ->; [|done].
  unfold handleParam.
  destruct (map Js.trim (Js.split p ":")) as [|a [|b [|c l']]]; try done.
  by apply replace_all_no_brace.
Qed.

Lemma rmatch_Seq {A : Type} (n0 : nat) (r1 r2 : re) (t : string) (c : caps)
    (k : string → caps → option A) :
  rmatch n0 (Seq r1 r2) t c k = rmatch n0 r1 t c (fun t' c' => rmatch n0 r2 t' c' k).
Proof. reflexivity. Qed.

Lemma rmatch_Grp {A : Type} (n0 n : nat) (r : re) (t : string) (c : caps)
    (k : string → caps → option A) :
  rmatch n0 (Grp n r) t c k
  = rmatch n0 r t c (fun t' c' => k t' ((n, Js.take (Js.len t - Js.len t') t) :: c')).
Proof. reflexivity. Qed.

Lemma rmatch_lit {A : Type} (n0 : nat) (a : ascii) (t : string) (c : caps)
    (k : string → caps → option A) :
  rmatch n0 (lit a) (String a t) c k = k t c.
Proof. unfold lit. cbn [rmatch]. by rewrite Ascii.eqb_refl. Qed.

Lemma rmatch_Opt_skip {A : Type} (n0 : nat) (p : ascii → bool) (t : string)
    (c : caps) (k : string → caps → option A) :
  match t with "" => True | String a _ => p a = false end →
  rmatch n0 (Opt (Chr p)) t c k = k t c.
Proof.
  intros Ht. unfold Opt. cbn [rmatch]. destruct t as [|a t]; [done|]. by rewrite Ht.
Qed.

Lemma placeholder_head (key post : string) :
  allChars placeholderChar key = true →
  match key +:+ "}}" +:+ post with
  | "" => True
  | String a _ => Js.is_space a = false
  end.
Proof.
  destruct key as [|a key]; [done|]. cbn [allChars]. rewrite str_app_cons.
  intros [Ha _]%andb_true_iff. unfold placeholderChar in Ha.
  apply negb_true_iff, orb_false_iff in Ha as [_ Ha]. done.
Qed.

Lemma placeholder_tail (key post : string) :
  allChars placeholderChar key = true →
  match "}}" +:+ post with
  | "" => True
  | String a _ => placeholderChar a = false
  end.
Proof. done. Qed.

(** A placeholder without spaces matches as a whole, and its name is the
    first capture. *)
Lemma exec_placeholder_match (n0 : nat) (key post : string) :
  allChars placeholderChar key = true →
  exec_at placeholderRe n0 ("{{" +:+ key +:+ "}}" +:+ post) = Some (post, [(1, key)]).
Proof.
  intros Hk. unfold exec_at, placeholderRe.
  change ("{{" +:+ key +:+ "}}" +:+ post)
    with (String "{" (String "{" (key +:+ "}}" +:+ post))).
  change (Chr (fun a => negb (Ascii.eqb a "{" || Ascii.eqb a "}" || Js.is_space a)))
    with (Chr placeholderChar).
  rewrite rmatch_Seq, rmatch_lit. cbv beta.
  rewrite rmatch_Seq, rmatch_lit. cbv beta.
  rewrite rmatch_Seq, rmatch_Opt_skip by (by apply placeholder_head). cbv beta.
  rewrite rmatch_Seq, rmatch_Grp, rmatch_Star.
  rewrite starLoop_chars; try done.
  rewrite (len_app key), Nat.add_sub, take_app_len. reflexivity.
Qed.

(** The replacement of the placeholders in a text with one placeholder,
    between two texts without an opening brace. *)
Lemma replace_all_one_placeholder (f : string → caps → string) (pre key post : string) :
  allChars (isNot "{") pre = true →
  allChars placeholderChar key = true →
  allChars (isNot "{") post = true →
  replace_all placeholderRe f (pre +:+ "{{" +:+ key +:+ "}}" +:+ post)
  = pre +:+ f ("{{" +:+ key +:+ "}}") [(1, key)] +:+ post.
Proof.
  intros Hpre Hkey Hpost. unfold replace_all.
  set (t := "{{" +:+ key +:+ "}}" +:+ post).
  assert (Js.len post < Js.len t) as Hlt.
  { unfold t. rewrite !len_app. change (Js.len "{{") with 2. lia. }
  rewrite replace_go_no_brace by (done || lia). f_equal.
  rewrite len_app.
  replace (S (Js.len pre + Js.len t) - Js.len pre) with (S (Js.len t)) by lia.
  rewrite replace_go_S. cbv zeta. unfold t at 2.
  rewrite exec_placeholder_match by done.
  rewrite (proj2 (Nat.ltb_lt _ _)) by done. f_equal.
  - f_equal. unfold t.
    replace ("{{" +:+ key +:+ "}}" +:+ post) with (("{{" +:+ key +:+ "}}") +:+ post)
      by (by rewrite !str_app_assoc).
    by rewrite (len_app _ post), Nat.add_sub, take_app_len.
  - match goal with
    | |- replace_go ?fu _ _ ?n _ = _ =>
        pose proof (replace_go_no_brace f post "" fu n Hpost) as H
    end.
    rewrite str_app_nil_r in H. rewrite H by lia.
    destruct (Js.len t - Js.len post) as [|n] eqn:E; [lia|].
    apply str_app_nil_r.
Qed.

(** X9. Let a param have the two parts [name] and [expr] around its colon.
    In a value with one placeholder, [{{key}}] without spaces, between two
    texts without an opening brace, [handleParam] replaces the placeholder
    by [${expr}] when [key] is [name], and leaves the value as it is
    otherwise. *)
Theorem X9_handleParam_fills_the_placeholder_of_its_name
    (pre key post param name expr : string) :
  map Js.trim (Js.split param ":") = [name; expr] →
  allChars (isNot "{") pre = true →
  allChars placeholderChar key = true →
  allChars (isNot "{") post = true →
  handleParam (pre +:+ "{{" +:+ key +:+ "}}" +:+ post) param
  = pre +:+ (if String.eqb key name then "${" +:+ expr +:+ "}"
             else "{{" +:+ key +:+ "}}") +:+ post.
Proof.
  intros Hparts Hpre Hkey Hpost. unfold handleParam. rewrite Hparts.
  by rewrite replace_all_one_placeholder.
Qed.

End PlaceholderFacts.

(** ** [getParams] on one literal *)

Section GetParamsFacts.
Import Regex Plugin.

#[local] Arguments Js.len : simpl never.
#[local] Arguments Js.take : simpl never.
#[local] Arguments Nat.ltb : simpl never.
#[local] Arguments Nat.sub : simpl never.

Lemma rmatch_Alt {A : Type} (n0 : nat) (r1 r2 : re) (t : string) (c : caps)
    (k : string → caps → option A) :
  rmatch n0 (Alt r1 r2) t c k
  = match rmatch n0 r1 t c k with
    | Some x => Some x
    | None => rmatch n0 r2 t c k
    end.
Proof. reflexivity. Qed.

Lemma rmatch_Star_nil {A : Type} (n0 : nat) (r : re) (c : caps)
    (k : string → caps → option A) :
  rmatch n0 (Star r) "" c k = k "" c.
Proof. reflexivity. Qed.

Lemma rmatch_lit_miss {A : Type} (n0 : nat) (a b : ascii) (t : string) (c : caps)
    (k : string → caps → option A) :
  a ≠ b → rmatch n0 (lit a) (String b t) c k = None.
Proof. intros Hne. unfold lit. cbn [rmatch]. by rewrite (proj2 (Ascii.eqb_neq a b)). Qed.

Lemma allChars_ext (p p' : ascii → bool) (x : string) :
  (∀ a, p a = p' a) → allChars p x = allChars p' x.
Proof. intros H. induction x as [|a x IH]; [done|]. cbn [allChars]. by rewrite H, IH. Qed.

Lemma exec_params_double (n0 : nat) (x : string) :
  allChars (isNot dquote) x = true →
  exec_at getParamsRe n0 (String dquote (x +:+ String dquote ""))
  = Some ("", [(1, String dquote (x +:+ String dquote ""))]).
Proof.
  intros Hx. unfold exec_at, getParamsRe, Plus. cbv zeta.
  rewrite rmatch_Alt, rmatch_Grp, rmatch_Seq, rmatch_Seq.
  unfold none_of at 1. rewrite rmatch_Star, starLoop_stop by done. cbv beta.
  rewrite rmatch_Seq, rmatch_Alt, rmatch_Seq, rmatch_lit. cbv beta.
  rewrite rmatch_Seq. unfold none_of at 1. rewrite rmatch_Star.
  rewrite (starLoop_chars n0 _ x (String dquote ""));
    [ | rewrite (allChars_ext _ (isNot dquote)); [done|];
        intros a; unfold isNot; cbn; by rewrite orb_false_r
      | done | done | eexists; reflexivity ].
  rewrite rmatch_lit. cbv beta. rewrite rmatch_Star_nil, rmatch_Star_nil.
  cbv iota. change (Js.len "") with 0. by rewrite Nat.sub_0_r, take_all.
Qed.

Lemma exec_params_single (n0 : nat) (x : string) :
  allChars (isNot "'") x = true →
  exec_at getParamsRe n0 (String "'" (x +:+ "'"))
  = Some ("", [(1, String "'" (x +:+ "'"))]).
Proof.
  intros Hx. unfold exec_at, getParamsRe, Plus. cbv zeta.
  rewrite rmatch_Alt, rmatch_Grp, rmatch_Seq, rmatch_Seq.
  unfold none_of at 1. rewrite rmatch_Star, starLoop_stop by done. cbv beta.
  rewrite rmatch_Seq, rmatch_Alt, rmatch_Seq, rmatch_lit_miss by done. cbv iota.
  rewrite rmatch_Alt, rmatch_Seq, rmatch_lit. cbv beta.
  rewrite rmatch_Seq. unfold none_of at 1. rewrite rmatch_Star.
  rewrite (starLoop_chars n0 _ x "'");
    [ | rewrite (allChars_ext _ (isNot "'")); [done|];
        intros a; unfold isNot; cbn; by rewrite orb_false_r
      | done | done | eexists; reflexivity ].
  rewrite rmatch_lit. cbv beta. rewrite rmatch_Star_nil, rmatch_Star_nil.
  cbv iota. change (Js.len "") with 0. by rewrite Nat.sub_0_r, take_all.
Qed.

(** The split of [getParams] on an input that matches as a whole: the one
    piece is the input. *)
Lemma split_whole_match (s : string) :
  s ≠ "" →
  exec_at getParamsRe (Js.len s) s = Some ("", [(1, s)]) →
  filterBoolean (Regex.split getParamsRe [1] s) = [s].
Proof.
  intros Hs He. unfold Regex.split. destruct s as [|a s]; [done|].
  cbn [split_go]. rewrite He. rewrite len_cons. change (Js.len "") with 0.
  cbn [Nat.eqb]. rewrite Nat.sub_diag.
  destruct (2 * S (Js.len s)) as [|n]; reflexivity.
Qed.

(** X13. An argument list that is one string literal between double quotes
    or between single quotes, without that quote inside, is one param:
    [getParams] does not split at the commas of the literal; the param is
    the literal with its runs of white space made one space. *)
Theorem X13_getParams_keeps_a_quoted_literal_whole (q : ascii) (x : string) :
  q = dquote ∨ q = "'"%char →
  allChars (isNot q) x = true →
  getParams (String q (x +:+ String q ""))
  = [Js.trim (replace_all spacesRe (fun _ _ => " ") (String q (x +:+ String q "")))].
Proof.
  intros Hq Hx. unfold getParams.
  rewrite split_whole_match; [done | done |].
  destruct Hq as [-> | ->]; [by apply exec_params_double | by apply exec_params_single].
Qed.

End GetParamsFacts.

(** ** Keys with several segments *)

Section PathFacts.
Import Plugin.

Lemma find_first_char_free (c : ascii) (s rest : string) :
  allChars (isNot c) s = true →
  Js.find_first (String c "") (s +:+ String c "" +:+ rest) = Some (s, rest).
Proof.
  induction s as [|a s IH]; intros Hs; rewrite find_first_eq.
  - rewrite !str_app_nil_l, str_app_cons. cbn [Js.strip_prefix].
    by rewrite Ascii.eqb_refl.
  - cbn [allChars] in Hs. apply andb_true_iff in Hs as [Ha Hs].
    rewrite str_app_cons. cbn [Js.strip_prefix].
    unfold isNot in Ha. apply negb_true_iff in Ha.
    rewrite Ascii.eqb_sym, Ha. by rewrite IH.
Qed.

Lemma find_first_char_none (c : ascii) (s : string) :
  allChars (isNot c) s = true → Js.find_first (String c "") s = None.
Proof.
  induction s as [|a s IH]; intros Hs; rewrite find_first_eq; [done|].
  cbn [allChars] in Hs. apply andb_true_iff in Hs as [Ha Hs].
  cbn [Js.strip_prefix]. unfold isNot in Ha. apply negb_true_iff in Ha.
  rewrite Ascii.eqb_sym, Ha. by rewrite IH.
Qed.

(** Splitting at a one-character separator undoes joining with it, for
    segments without that character. *)
Lemma split_joinWith (c : ascii) (segs : list string) :
  segs ≠ [] →
  Forall (fun s => allChars (isNot c) s = true) segs →
  Js.split (joinWith (String c "") segs) (String c "") = segs.
Proof.
  induction segs as [|s rest IH]; [done|]. intros _ Hall.
  apply Forall_cons in Hall as [Hs Hrest].
  destruct rest as [|s2 rest].
  - cbn [joinWith]. apply split_no_occurrence; [done|]. by apply find_first_char_none.
  - change (joinWith (String c "") (s :: s2 :: rest))
      with (s +:+ String c "" +:+ joinWith (String c "") (s2 :: rest)).
    set (J := joinWith (String c "") (s2 :: rest)) in *.
    pose proof (find_first_char_free c s J Hs) as Hf.
    assert (String c "" ≠ "") as Hsep by done.
    pose proof (find_first_shorter _ _ _ _ Hsep Hf) as Hlt.
    unfold Js.split. destruct (Js.len (s +:+ String c "" +:+ J)) as [|n] eqn:E; [lia|].
    cbn [Js.split_go]. rewrite Hf. f_equal.
    rewrite (split_go_fuel _ n (Js.len J)) by (done || lia).
    by apply IH.
Qed.

Lemma walk_nest (rt : Runtime) (segs : list string) (v : string) :
  walkFrom rt segs (Some (Data (nest segs (JStr v)))) = Ok (Some (Data (JStr v))).
Proof.
  induction segs as [|k rest IH]; [done|].
  rewrite walkFrom_cons. cbn [nest walkStep truthy_node truthy_val get_prop own_prop].
  rewrite lookup_singleton_eq, !bind_Ok.
  by destruct rest.
Qed.

(** X10. Let the key separator be one character and let [segs] be one or
    more segments without that character. In the tree whose one path is
    [segs] and whose leaf is the string [v], [getValue] of the joined
    segments returns [v] between backticks, the empty string included, in
    every runtime. *)
Theorem X10_getValue_follows_the_path
    (rt : Runtime) (c : ascii) (segs : list string) (v : string) :
  segs ≠ [] →
  Forall (fun s => allChars (isNot c) s = true) segs →
  getValue rt (joinWith (String c "") segs) (Some (Data (nest segs (JStr v)))) None
    (String c "")
  = Ok (Some (quoteValue v)).
Proof.
  intros Hne Hall. unfold getValue, walk.
  by rewrite split_joinWith, walk_nest.
Qed.

(** X23. The walk of [getValue] goes on in the members that a value
    inherits. Let the object [m] have no entry [k1] and inherit under that
    name a built-in object [h]. For the key [k1], separator, [k2]:
    [getValue] returns the member [k2] of [h] between backticks when that
    member is a string, and it throws when that member is an accessor that
    throws. *)
Theorem X23_getValue_reads_inherited_members
    (rt : Runtime) (c : ascii) (k1 k2 h : string) (m : gmap string jsval) :
  allChars (isNot c) k1 = true →
  allChars (isNot c) k2 = true →
  m !! k1 = None →
  rt (Data (JObj m)) k1 = Ok (Some (Host h)) →
  (∀ s, rt (Host h) k2 = Ok (Some (Data (JStr s))) →
        getValue rt (k1 +:+ String c "" +:+ k2) (Some (Data (JObj m))) None (String c "")
        = Ok (Some (quoteValue s)))
  ∧ (rt (Host h) k2 = TypeError →
     getValue rt (k1 +:+ String c "" +:+ k2) (Some (Data (JObj m))) None (String c "")
     = TypeError).
Proof.
  intros H1 H2 Hm Hrt.
  assert (Js.split (k1 +:+ String c "" +:+ k2) (String c "") = [k1; k2]) as Hsplit.
  { change (k1 +:+ String c "" +:+ k2) with (joinWith (String c "") [k1; k2]).
    apply split_joinWith; [done | by repeat constructor]. }
  assert (walk rt (k1 +:+ String c "" +:+ k2) (Some (Data (JObj m))) (String c "")
          = (v ← rt (Host h) k2;
             match v with
             | Some (Data JNull) | None => Ok None
             | Some w => Ok (Some w)
             end)) as Hw.
  { unfold walk. rewrite Hsplit, !walkFrom_cons.
    cbn [walkStep truthy_node truthy_val get_prop own_prop].
    rewrite Hm, Hrt, !bind_Ok, walkFrom_cons. cbn [walkStep truthy_node get_prop].
    by destruct (rt (Host h) k2) as [[[[]|]|]|]. }
  split.
  - intros s Hs. unfold getValue. by rewrite Hw, Hs.
  - intros Ht. unfold getValue. by rewrite Hw, Ht.
Qed.

End PathFacts.

(** ** The text that replaces a call *)

Section ReplaceFacts.
Import Plugin.

Variable globalLang : string.
Variable translateFnSignatureMatch : string → option string.
Variable rt : Runtime.
Variable translation : gmap string jsval.
Variable opts : Options.

Lemma get_substitution_plain (matched pre post template : string) :
  plainTemplate template = true →
  Js.get_substitution matched pre post template = template.
Proof.
  induction template as [|a t IH]; [done|]. cbn [plainTemplate Js.get_substitution].
  intros [Ha Ht]%andb_true_iff. specialize (IH Ht).
  destruct (Ascii.eqb a "$"); [|by rewrite IH].
  destruct t as [|b t]; [done|].
  apply negb_true_iff in Ha.
  apply orb_false_iff in Ha as [Ha H4]. apply orb_false_iff in Ha as [Ha H3].
  apply orb_false_iff in Ha as [H1 H2]. rewrite H1, H2, H3, H4. by rewrite IH.
Qed.

(** A backtick after a dollar at the end of a text without other patterns
    stands for the text before the match. *)
Lemma get_substitution_dollar_backtick (matched pre post template : string) :
  plainTemplate (template +:+ "$") = true →
  Js.get_substitution matched pre post (template +:+ "$`") = template +:+ pre.
Proof.
  induction template as [|a t IH].
  - intros _. rewrite !str_app_nil_l. cbn. by rewrite str_app_nil_r.
  - rewrite !str_app_cons. cbn [plainTemplate Js.get_substitution].
    intros [Ha Ht]%andb_true_iff. specialize (IH Ht).
    destruct (Ascii.eqb a "$"); [|by rewrite IH].
    destruct t as [|b t]; [done|]. rewrite !str_app_cons in *.
    apply negb_true_iff in Ha.
    apply orb_false_iff in Ha as [Ha H4]. apply orb_false_iff in Ha as [Ha H3].
    apply orb_false_iff in Ha as [H1 H2]. rewrite H1, H2, H3, H4. by rewrite IH.
Qed.

(** X12. Take a call with static params whose key has a value in its
    default language, let [value lang] be what [getValue] returns for each
    language of the call, and let the chain of these values have no
    replacement pattern of [String.prototype.replace]. The new code is the
    code with the first occurrence of the text of the call replaced by the
    chain, character for character. *)
Theorem X12_chain_without_patterns_is_inserted_as_it_is
    (code pre post : string) (trace : list string)
    (originalFn args param0 key defaultValue : string) (langs : list string) (d : string)
    (value : string → option string) :
  translateFnSignatureMatch originalFn = Some args →
  Js.truthy args = true →
  dynamicParams (getParams args) = false →
  getParams args !! 0 = Some param0 →
  getKey param0 opts.(keyValueSeparator) = Some key →
  callLangs opts (getParams args) = (langs, d) →
  (∀ lang, lang = d ∨ lang ∈ langs →
           valueIn rt translation opts key (getParams args) lang = Ok (value lang)) →
  value d = Some defaultValue →
  Js.find_first originalFn code = Some (pre, post) →
  plainTemplate (chain globalLang value langs d) = true →
  inlineCall globalLang translateFnSignatureMatch rt translation opts code trace originalFn
  = Ok (pre +:+ chain globalLang value langs d +:+ post,
        trace ++ missingNotices key value langs d).
Proof.
  intros Hs Ht Hdyn H0 Hkey Hlangs Hv Hd Hf Hp.
  rewrite (inlineCall_args _ _ _ _ _ _ _ _ args) by done.
  rewrite (inlineArgs_resolved _ _ _ _ _ _ _ _ param0 key defaultValue langs d value)
    by done.
  unfold Js.replace. rewrite Hf. by rewrite get_substitution_plain.
Qed.

(** X7. Take a call with static params and without interpolation params,
    whose key leads, in the data of its default language, to a string that
    ends with a dollar, the chain having no other replacement pattern;
    [value lang] is what [getValue] returns for each language of the call.
    The dollar and the closing backtick of the value make the pattern of
    [String.prototype.replace] for the text before the match: the new code
    has, in place of them, a copy of the code that precedes the call. *)
Theorem X7_value_ending_with_a_dollar_copies_the_code_before_the_call
    (code pre post : string) (trace : list string)
    (originalFn args param0 key u : string) (langs : list string) (d : string)
    (data : option node) (value : string → option string) :
  translateFnSignatureMatch originalFn = Some args →
  Js.truthy args = true →
  getParams args !! 0 = Some param0 →
  getParams args !! 1 = None →
  getKey param0 opts.(keyValueSeparator) = Some key →
  callLangs opts (getParams args) = (langs, d) →
  langData rt translation d = Ok data →
  walk rt key data opts.(keySeparator) = Ok (Some (Data (JStr (u +:+ "$")))) →
  (∀ lang, lang = d ∨ lang ∈ langs →
           valueIn rt translation opts key (getParams args) lang = Ok (value lang)) →
  Js.find_first originalFn code = Some (pre, post) →
  plainTemplate (chainTerms globalLang value langs d +:+ "`" +:+ u +:+ "$") = true →
  inlineCall globalLang translateFnSignatureMatch rt translation opts code trace originalFn
  = Ok (pre +:+ (chainTerms globalLang value langs d +:+ "`" +:+ u +:+ pre) +:+ post,
        trace ++ missingNotices key value langs d).
Proof.
  intros Hs Ht H0 H1 Hkey Hlangs Hdata Hw Hv Hf Hp.
  assert (value d = Some (quoteValue (u +:+ "$"))) as Hd.
  { pose proof (Hv d (or_introl eq_refl)) as Hvd.
    unfold valueIn, getValue in Hvd. rewrite Hdata, bind_Ok, Hw, bind_Ok, H1 in Hvd.
    congruence. }
  assert (dynamicParams (getParams args) = false) as Hdyn.
  { unfold dynamicParams. by rewrite H1. }
  rewrite (inlineCall_args _ _ _ _ _ _ _ _ args) by done.
  rewrite (inlineArgs_resolved _ _ _ _ _ _ _ _ param0 key _ langs d value
             Hdyn H0 Hkey Hlangs Hv Hd).
  f_equal. f_equal. unfold Js.replace. rewrite Hf. f_equal. f_equal.
  rewrite chain_chainTerms, Hd. cbn [Js.to_string]. unfold quoteValue.
  set (T := chainTerms _ _ _ _) in *.
  replace (T +:+ "`" +:+ (u +:+ "$") +:+ "`") with ((T +:+ "`" +:+ u) +:+ "$`")
    by (by rewrite !str_app_assoc).
  rewrite get_substitution_dollar_backtick; [by rewrite !str_app_assoc|].
  by rewrite !str_app_assoc.
Qed.

End ReplaceFacts.

(** ** The translation data of the build *)

Section BuildFacts.
Import Plugin Build.

Variable globalLang : string.
Variable translateFnSignatureMatch : string → option string.
Variable rt : Runtime.
Variable opts : Options.
Variable JSONparse : string → option jsval.

(** On the empty object a key has no value, when the empty object inherits
    no member under the first segment of the key. *)
Lemma getValue_empty_object (key : string) (args : option string)
    (keySeparator k1 : string) (rest : list string) :
  Js.split key keySeparator = k1 :: rest →
  rt (Data (JObj ∅)) k1 = Ok None →
  getValue rt key (Some (Data (JObj ∅))) args keySeparator = Ok None.
Proof.
  intros Hsplit Hrt. unfold getValue, walk. rewrite Hsplit.
  by rewrite (walk_missing_entry rt [] rest k1 _ ∅).
Qed.

Lemma initialTranslation_lookup (langs : list string) (lang : string) :
  lang ∈ langs → initialTranslation langs !! lang = Some (JObj ∅).
Proof.
  unfold initialTranslation.
  assert (∀ m : gmap string jsval,
            (lang ∈ langs ∨ m !! lang = Some (JObj ∅)) →
            fold_left (fun t l => <[l := JObj ∅]> t) langs m !! lang = Some (JObj ∅))
    as H.
  { induction langs as [|l langs IH]; intros m Hm; cbn [fold_left].
    - destruct Hm as [Hin|Hm]; [by apply elem_of_nil in Hin | done].
    - apply IH. destruct (decide (l = lang)) as [->|Hne].
      + right. apply lookup_insert_eq.
      + rewrite lookup_insert_ne by done. destruct Hm as [Hin|Hm]; [|by right].
        left. apply elem_of_cons in Hin as [->|Hin]; done. }
  intros Hin. apply H. by left.
Qed.

(** X5. With the dataset as [qwikSpeakInline] creates it, an empty object
    for every supported language and no file read yet, a call with static
    params is skipped: the code stays as it is and the trace gets the
    notice of the default language. The default language of the call is
    one of the supported languages, and the first segment of the key names
    no member that the empty object inherits. *)
Theorem X5_every_call_is_skipped_before_the_files_are_read
    (code : string) (trace : list string)
    (originalFn args param0 key k1 : string) (rest langs : list string) (d : string) :
  translateFnSignatureMatch originalFn = Some args →
  Js.truthy args = true →
  dynamicParams (getParams args) = false →
  getParams args !! 0 = Some param0 →
  getKey param0 opts.(keyValueSeparator) = Some key →
  callLangs opts (getParams args) = (langs, d) →
  d ∈ opts.(supportedLangs) →
  Js.split key opts.(keySeparator) = k1 :: rest →
  rt (Data (JObj ∅)) k1 = Ok None →
  inlineCall globalLang translateFnSignatureMatch rt
    (initialTranslation opts.(supportedLangs)) opts code trace originalFn
  = Ok (code, trace ++ [d +:+ " - missing value for key: " +:+ key +:+ " - Skip"]).
Proof.
  intros Hs Ht Hdyn H0 Hkey Hlangs Hd Hsplit Hrt.
  rewrite (inlineCall_args _ _ _ _ _ _ _ _ args) by done.
  apply (inlineArgs_default_missing _ _ _ _ _ _ _ _ param0 key langs d); try done.
  unfold valueIn, langData. cbn [get_prop own_prop].
  rewrite (initialTranslation_lookup _ _ Hd), bind_Ok.
  by apply (getValue_empty_object _ _ _ k1 rest).
Qed.


(** X18. The files of a language are merged at their top level only. When
    the last file read is an object with an entry for the first segment of
    a key, [getValue] of that key on the merged data is [getValue] of it on
    that file alone: what the files before it have under the same first
    segment is not seen. *)
Theorem X18_a_later_file_hides_the_entries_of_the_earlier_ones
    (before : list string) (last key keySeparator k1 : string) (rest : list string)
    (args : option string) (data0 m : gmap string jsval) (v : jsval) :
  loadData JSONparse ".json" before = Some data0 →
  Js.truthy last = true →
  JSONparse last = Some (JObj m) →
  m !! k1 = Some v →
  Js.split key keySeparator = k1 :: rest →
  ∃ data,
    loadData JSONparse ".json" (before ++ [last]) = Some data
    ∧ getValue rt key (Some (Data (JObj data))) args keySeparator
      = getValue rt key (Some (Data (JObj m))) args keySeparator.
Proof.
  intros Hb Ht Hp Hm Hsplit. exists (m ∪ data0). split.
  - unfold loadData in *. rewrite fold_left_app, Hb. cbn [fold_left].
    cbn. rewrite Ht. unfold parseJson. by rewrite Hp.
  - unfold getValue, walk. rewrite Hsplit, !walkFrom_cons.
    cbn [walkStep truthy_node truthy_val get_prop own_prop].
    by rewrite (lookup_union_Some_l _ _ _ _ Hm), Hm.
Qed.

End BuildFacts.

(** * Properties of the scan of the source files *)

Section ScanFacts.
Import Regex Scan.

Lemma rmatch_lits {A : Type} (n0 : nat) (s t : string) (c : caps)
    (k : string → caps → option A) :
  rmatch n0 (lits s) t c k
  = match Js.strip_prefix s t with
    | Some t' => k t' c
    | None => None
    end.
Proof.
  revert t. induction s as [|a s IH]; intros t; [done|].
  cbn [lits]. rewrite rmatch_Seq. unfold lit. cbn [rmatch Js.strip_prefix].
  destruct t as [|b t]; [done|]. destruct (Ascii.eqb a b); [apply IH | done].
Qed.

Lemma strip_prefix_longer (p q t : string) :
  Js.strip_prefix p t = None → Js.strip_prefix (p +:+ q) t = None.
Proof.
  revert t. induction p as [|a p IH]; intros t; [done|].
  rewrite str_app_cons. cbn [Js.strip_prefix]. destruct t as [|b t]; [done|].
  destruct (Ascii.eqb a b); [apply IH | done].
Qed.

(** At one position the expression matches exactly when [.js] or [.ts]
    starts there. *)
Lemma exec_sourceExt (n0 : nat) (t : string) :
  is_Some (exec_at sourceExtRe n0 t)
  ↔ is_Some (Js.strip_prefix ".js" t) ∨ is_Some (Js.strip_prefix ".ts" t).
Proof.
  unfold exec_at, sourceExtRe. rewrite !rmatch_Alt, !rmatch_lits.
  pose proof (strip_prefix_longer ".js" "x" t) as Hj.
  pose proof (strip_prefix_longer ".ts" "x" t) as Ht.
  change (".js" +:+ "x") with ".jsx" in Hj. change (".ts" +:+ "x") with ".tsx" in Ht.
  destruct (Js.strip_prefix ".js" t) as [r1|]; [by split; eauto|].
  destruct (Js.strip_prefix ".ts" t) as [r2|]; [by split; eauto|].
  rewrite Hj, Ht by done. split; [by intros [? ?] | by intros [[? ?]|[? ?]]].
Qed.

Lemma occursIn_cons (pat : string) (a : ascii) (t : string) :
  occursIn pat (String a t)
  ↔ is_Some (Js.strip_prefix pat (String a t)) ∨ occursIn pat t.
Proof.
  unfold occursIn. rewrite (find_first_eq pat (String a t)).
  destruct (Js.strip_prefix pat (String a t)) as [r|]; [by split; eauto|].
  destruct (Js.find_first pat t) as [[pre post]|].
  - split; eauto.
  - split; [by intros [? ?] | by intros [[? ?]|[? ?]]].
Qed.

Lemma test_from_sourceExt (n0 : nat) (t : string) :
  test_from sourceExtRe n0 t = true ↔ occursIn ".js" t ∨ occursIn ".ts" t.
Proof.
  induction t as [|a t IH].
  - cbn. split; [done | by intros [[? ?]|[? ?]]].
  - cbn [test_from]. rewrite !occursIn_cons.
    pose proof (exec_sourceExt n0 (String a t)) as He.
    destruct (exec_at sourceExtRe n0 (String a t)) as [r|].
    + split; [|done]. intros _. destruct (proj1 He) as [H|H]; eauto.
    + rewrite IH. split; [tauto|]. intros [[H|H]|[H|H]]; try tauto.
      * destruct (proj2 He (or_introl H)) as [? ?]. done.
      * destruct (proj2 He (or_intror H)) as [? ?]. done.
Qed.

(** X14. The test on the extension of a file accepts exactly the extensions
    in which [.js] or [.ts] occurs, at any place: the alternatives [.jsx]
    and [.tsx] of the expression add nothing, and an extension such as
    [.json] is accepted. *)
Theorem X14_source_extensions_are_those_with_js_or_ts (ext : string) :
  isSourceExt ext = true ↔ occursIn ".js" ext ∨ occursIn ".ts" ext.
Proof. apply test_from_sourceExt. Qed.

End ScanFacts.

Section CollectFacts.
Import Scan.

Lemma bump_same (stats : gmap string nat) (name : string) :
  default 0 (bump stats name !! name) = default 0 (stats !! name) + 1.
Proof. unfold bump. by rewrite lookup_insert_eq. Qed.

Lemma bump_other (stats : gmap string nat) (name other : string) :
  name ≠ other → bump stats name !! other = stats !! other.
Proof. intros Hne. unfold bump. by rewrite lookup_insert_ne. Qed.

(** What one call expression does to the keys and to the counters. *)
Lemma parseExpression_cases (keys : list string) (stats : gmap string nat)
    (arguments : option (list Argument)) :
  (hasKeyValue arguments = false
   ∧ parseExpression (keys, stats) arguments = (keys, stats))
  ∨ (hasKeyValue arguments = true
     ∧ parseExpression (keys, stats) arguments = (keys, bump stats "dynamic"))
  ∨ (hasKeyValue arguments = true
     ∧ ∃ args arg0 value,
         arguments = Some args ∧ args !! 0 = Some arg0 ∧ argValue arg0 = Some value
         ∧ argType arg0 ≠ "Identifier"
         ∧ (∀ i, i = 1 ∨ i = 2 ∨ i = 3 →
                 typeAt args i "Identifier" = false
                 ∧ typeAt args i "CallExpression" = false)
         ∧ parseExpression (keys, stats) arguments = (keys ++ [value], bump stats "keys")).
Proof.
  unfold parseExpression, hasKeyValue.
  destruct arguments as [args|]; [|by left].
  destruct (args !! 0) as [arg0|] eqn:H0; [|by left].
  destruct (argValue arg0) as [value|] eqn:Hv; [|by left]. cbn [Js.truthy_opt].
  destruct (Js.truthy value); [|by left]. right.
  destruct (String.eqb_spec (argType arg0) "Identifier") as [|Hid]; [by left|].
  destruct (_ && _); [by left|].
  destruct (typeAt args 1 "Identifier") eqn:E1; [by left|].
  destruct (typeAt args 1 "CallExpression") eqn:E2; [by left|].
  destruct (typeAt args 2 "Identifier") eqn:E3; [by left|].
  destruct (typeAt args 2 "CallExpression") eqn:E4; [by left|].
  destruct (typeAt args 3 "Identifier") eqn:E5; [by left|].
  destruct (typeAt args 3 "CallExpression") eqn:E6; [by left|].
  right. split; [done|]. exists args, arg0, value. repeat split; try done.
  all: destruct H as [-> | [-> | ->]]; done.
Qed.

(** The loop from any state: the new keys come after the old ones. *)
Lemma parseSequence_loop (sequence : list (option (list Argument)))
    (keys0 : list string) (stats0 : gmap string nat) :
  ∃ new stats,
    fold_left parseExpression sequence (keys0, stats0) = (keys0 ++ new, stats)
    ∧ default 0 (stats !! "keys") = default 0 (stats0 !! "keys") + length new
    ∧ default 0 (stats !! "dynamic") + length new
      = default 0 (stats0 !! "dynamic") + length (filter (fun e => hasKeyValue e = true) sequence)
    ∧ (∀ name, name ≠ "keys" → name ≠ "dynamic" → stats !! name = stats0 !! name)
    ∧ ∀ k, k ∈ new →
        ∃ args arg0,
          Some args ∈ sequence ∧ args !! 0 = Some arg0 ∧ argValue arg0 = Some k
          ∧ argType arg0 ≠ "Identifier"
          ∧ ∀ i, i = 1 ∨ i = 2 ∨ i = 3 →
                 typeAt args i "Identifier" = false
                 ∧ typeAt args i "CallExpression" = false.
Proof.
  revert keys0 stats0. induction sequence as [|e l IH]; intros keys0 stats0.
  - exists [], stats0. cbn [fold_left]. rewrite app_nil_r, filter_nil.
    repeat split; try done; try (cbn; lia). intros k Hk. by apply elem_of_nil in Hk.
  - cbn [fold_left]. rewrite filter_cons.
    destruct (parseExpression_cases keys0 stats0 e)
      as [[Hk ->] | [[Hk ->] | [Hk (args & arg0 & value & -> & H0 & Hv & Hid & Hty & ->)]]].
    + destruct (IH keys0 stats0) as (new & stats & -> & Hkeys & Hdyn & Hoth & Hin).
      exists new, stats. rewrite decide_False by (by rewrite Hk).
      repeat split; try done. intros k Hkin.
      destruct (Hin k Hkin) as (a & a0 & ? & ?). exists a, a0. split; [|done].
      apply elem_of_cons. auto.
    + destruct (IH keys0 (bump stats0 "dynamic")) as (new & stats & -> & Hkeys & Hdyn & Hoth & Hin).
      exists new, stats. rewrite decide_True by done. cbn [length].
      rewrite bump_other in Hkeys by done. rewrite bump_same in Hdyn.
      repeat split; try done; try lia.
      * intros name H1 H2. rewrite Hoth by done. by apply bump_other.
      * intros k Hkin. destruct (Hin k Hkin) as (a & a0 & ? & ?).
        exists a, a0. split; [|done]. apply elem_of_cons. auto.
    + destruct (IH (keys0 ++ [value]) (bump stats0 "keys"))
        as (new & stats & -> & Hkeys & Hdyn & Hoth & Hin).
      exists (value :: new), stats. rewrite decide_True by done. cbn [length].
      rewrite bump_same in Hkeys. rewrite bump_other in Hdyn by done.
      split; [by rewrite <- app_assoc|]. repeat split; try lia.
      * intros name H1 H2. rewrite Hoth by done. by apply bump_other.
      * intros k [->|Hkin]%elem_of_cons.
        -- exists args, arg0. split; [apply list_elem_of_here | done].
        -- destruct (Hin k Hkin) as (a & a0 & ? & ?).
           exists a, a0. split; [|done]. apply elem_of_cons. auto.
Qed.

(** X15. After the call expressions of a file, the counter [keys] has grown
    by the number of keys that the file gives, the counter [dynamic] by the
    number of the other calls whose first argument has a value that is not
    empty, and no other counter has changed: every such call is counted
    once, as a key or as dynamic. *)
Theorem X15_every_call_with_a_key_is_counted_once
    (stats : gmap string nat) (sequence : list (option (list Argument))) :
  let keys := (parseSequence stats sequence).1 in
  let stats' := (parseSequence stats sequence).2 in
  default 0 (stats' !! "keys") = default 0 (stats !! "keys") + length keys
  ∧ default 0 (stats' !! "dynamic") + length keys
    = default 0 (stats !! "dynamic")
      + length (filter (fun e => hasKeyValue e = true) sequence)
  ∧ ∀ name, name ≠ "keys" → name ≠ "dynamic" → stats' !! name = stats !! name.
Proof.
  unfold parseSequence.
  destruct (parseSequence_loop sequence [] stats) as (new & st & -> & H1 & H2 & H3 & _).
  cbn [fst snd app]. auto.
Qed.

(** X16. A key that a file gives is the value of the first argument of one
    of its call expressions; that argument is not an identifier, and the
    second, third and fourth arguments of the call are neither identifiers
    nor call expressions. *)
Theorem X16_no_key_comes_from_a_dynamic_call
    (stats : gmap string nat) (sequence : list (option (list Argument))) (k : string) :
  k ∈ (parseSequence stats sequence).1 →
  ∃ args arg0,
    Some args ∈ sequence ∧ args !! 0 = Some arg0 ∧ argValue arg0 = Some k
    ∧ argType arg0 ≠ "Identifier"
    ∧ ∀ i, i = 1 ∨ i = 2 ∨ i = 3 →
           typeAt args i "Identifier" = false ∧ typeAt args i "CallExpression" = false.
Proof.
  unfold parseSequence.
  destruct (parseSequence_loop sequence [] stats) as (new & st & -> & _ & _ & _ & Hin).
  cbn [fst app]. apply Hin.
Qed.

End CollectFacts.

(** * Properties of the configuration of the sample application *)

Section ResolveFacts.
Import SpeakConfig.

Context {Locale : Type}.
Variable lang : Locale → string.

Lemma find_stronger (P Q : Locale → bool) (l : list Locale) (x : Locale) :
  List.find P l = Some x → (∀ y, Q y = true → P y = true) → Q x = true →
  List.find Q l = Some x.
Proof.
  intros Hf HQP HQ. induction l as [|y l IH]; [done|]. cbn [List.find] in *.
  destruct (P y) eqn:HP.
  - injection Hf as ->. by rewrite HQ.
  - destruct (Q y) eqn:HQy; [|by apply IH]. apply HQP in HQy. congruence.
Qed.

(** X19. [resolveLocale$] returns the first supported locale whose language
    after a slash starts the path, when there is one and its language is
    not empty; otherwise it returns the first supported locale with the
    default language. So a locale whose language starts the language of a
    later one is returned for the paths of both. *)
Theorem X19_resolveLocale_takes_the_first_prefix
    (supportedLocales : list Locale) (defaultLang pathname : string) :
  resolveLocale lang supportedLocales defaultLang pathname
  = match List.find (fun x => startsWith pathname ("/" +:+ lang x)) supportedLocales with
    | Some x =>
        if Js.truthy (lang x) then Some x
        else List.find (fun y => String.eqb (lang y) defaultLang) supportedLocales
    | None => List.find (fun y => String.eqb (lang y) defaultLang) supportedLocales
    end.
Proof.
  unfold resolveLocale.
  destruct (List.find (fun x => startsWith pathname ("/" +:+ lang x)) supportedLocales)
    as [x|] eqn:E; [|reflexivity].
  cbn [fmap option_fmap option_map].
  destruct (Js.truthy (lang x)); [|reflexivity].
  apply (find_stronger _ _ _ _ E).
  - intros y Hy. apply String.eqb_eq in Hy. rewrite Hy.
    apply find_some in E as [_ E]. exact E.
  - apply String.eqb_refl.
Qed.

End ResolveFacts.

(** * Calls that are left alone *)

Section SkipFacts.
Import Regex Plugin.

Variable globalLang : string.
Variable translateFnSignatureMatch : string → option string.
Variable rt : Runtime.
Variable translation : gmap string jsval.
Variable opts : Options.

(** A repetition of a character class fails on a run of characters of the
    class when what follows the repetition fails at every place of the
    run. *)
Lemma starLoop_chars_fail {A : Type} (n0 : nat) (p : ascii → bool) (fuel : nat)
    (t : string) (c : caps) (k : string → caps → option A) :
  allChars p t = true →
  (∀ t' c', allChars p t' = true → k t' c' = None) →
  starLoop (fun t c k => rmatch n0 (Chr p) t c k) k fuel t c = None.
Proof.
  intros Ht Hk. revert t c Ht. induction fuel as [|fuel IH]; intros t c Ht.
  - by apply Hk.
  - cbn [starLoop rmatch]. destruct t as [|a t]; [by apply Hk|].
    cbn [allChars] in Ht. pose proof Ht as [Ha Ht']%andb_true_iff. rewrite Ha.
    destruct (Js.len t <? Js.len (String a t)); [rewrite IH by done|]; by apply Hk.
Qed.

Lemma word_char (b : ascii) :
  Js.is_word b = true → Ascii.eqb ":" b = false ∧ Js.is_space b = false.
Proof. destruct b as [[] [] [] [] [] [] [] []]; cbv; auto. Qed.

Lemma exec_paramNames_word (n0 : nat) (t : string) :
  allChars Js.is_word t = true → exec_at paramNamesRe n0 t = None.
Proof.
  intros Ht. unfold exec_at, paramNamesRe, Plus.
  rewrite rmatch_Grp, rmatch_Seq, rmatch_Seq. cbn [rmatch].
  destruct t as [|a t]; [done|]. cbn [allChars] in Ht.
  apply andb_true_iff in Ht as [Ha Ht]. rewrite Ha.
  change ((fix loop (fuel : nat) (t0 : string) (c : caps) {struct fuel} := _) (Js.len t) t [])
    with (starLoop (fun t c k => rmatch n0 (Chr Js.is_word) t c k)
            (fun t' c' =>
               rmatch n0 (Ahead (Alt (lit ":") (Seq (Seq (Chr Js.is_space) (Star (Chr Js.is_space))) (lit ":"))))
                 t' c'
                 (fun t'0 c'0 =>
                    Some (t'0, (1, Js.take (Js.len (String a t) - Js.len t'0) (String a t)) :: c'0)))
            (Js.len t) t []).
  apply starLoop_chars_fail; [done|]. intros t' c' Ht'.
  cbn [rmatch]. unfold lit. cbn [rmatch]. destruct t' as [|b t']; [done|].
  cbn [allChars] in Ht'. apply andb_true_iff in Ht' as [Hb _].
  destruct (word_char b Hb) as [-> ->]. done.
Qed.

Lemma test_paramNames_word (n0 : nat) (t : string) :
  allChars Js.is_word t = true → test_from paramNamesRe n0 t = false.
Proof.
  induction t as [|a t IH]; intros Ht; cbn [test_from];
    rewrite exec_paramNames_word by done; [done|].
  cbn [allChars] in Ht. apply andb_true_iff in Ht as [_ Ht]. by apply IH.
Qed.

(** X20. A call whose second parameter is made of letters, digits and
    underscores only (an identifier, a number) counts as a call with
    dynamic params: the turn of the loop leaves the code and the trace as
    they are, whatever the dataset has for its key. *)
Theorem X20_a_call_with_an_identifier_as_params_is_left_alone
    (code : string) (trace : list string) (originalFn args p1 : string) :
  translateFnSignatureMatch originalFn = Some args →
  Js.truthy args = true →
  getParams args !! 1 = Some p1 →
  p1 ≠ "" →
  allChars Js.is_word p1 = true →
  inlineCall globalLang translateFnSignatureMatch rt translation opts code trace originalFn
  = Ok (code, trace).
Proof.
  intros Hs Ht H1 Hne Hw. rewrite (inlineCall_args _ _ _ _ _ _ _ _ args) by done.
  unfold inlineArgs, dynamicParams. rewrite H1.
  unfold Regex.test. rewrite test_paramNames_word by done.
  by destruct p1.
Qed.

(** The expression of [getParams] does not match in a text without commas
    and quote characters. *)
Lemma exec_params_plain (n0 : nat) (t : string) :
  allChars paramPlainChar t = true → exec_at getParamsRe n0 t = None.
Proof.
  intros Ht. unfold exec_at, getParamsRe, Plus. cbv zeta.
  assert (∀ b, paramPlainChar b = true →
               Ascii.eqb "," b = false ∧ Ascii.eqb dquote b = false
               ∧ Ascii.eqb "'" b = false) as Hplain.
  { intros b Hb. unfold paramPlainChar in Hb. cbn in Hb.
    apply negb_true_iff in Hb.
    apply orb_false_iff in Hb as [H1 Hb]. apply orb_false_iff in Hb as [H2 Hb].
    apply orb_false_iff in Hb as [H3 _].
    rewrite (Ascii.eqb_sym "," b), (Ascii.eqb_sym dquote b), (Ascii.eqb_sym "'" b).
    auto. }
  rewrite rmatch_Alt, rmatch_Grp, rmatch_Seq, rmatch_Seq.
  change (none_of (String "," quotes)) with (Chr paramPlainChar) at 1.
  rewrite rmatch_Star, starLoop_chars_fail; [| done |].
  - unfold lit. cbn [rmatch]. destruct t as [|b t]; [done|].
    cbn [allChars] in Ht. apply andb_true_iff in Ht as [Hb _].
    by destruct (Hplain b Hb) as (-> & _ & _).
  - intros t' c' Ht'. rewrite rmatch_Seq, !rmatch_Alt, !rmatch_Seq. unfold lit.
    cbn [rmatch]. destruct t' as [|b t']; [done|].
    cbn [allChars] in Ht'. apply andb_true_iff in Ht' as [Hb _].
    by destruct (Hplain b Hb) as (-> & -> & ->).
Qed.

Lemma split_go_plain (fuel n0 : nat) (tp tq : string) :
  allChars paramPlainChar tq = true →
  Regex.split_go fuel getParamsRe [1] n0 tp tq = [Some tp].
Proof.
  revert tq. induction fuel as [|fuel IH]; intros tq Ht; [done|].
  cbn [Regex.split_go]. destruct tq as [|a tq]; [done|].
  rewrite exec_params_plain by done.
  cbn [allChars] in Ht. apply andb_true_iff in Ht as [_ Ht]. by apply IH.
Qed.

(** X21. An argument list without a comma and without a quote character,
    and not empty, is one param: the list itself, with its runs of white
    space made one space and without white space at its ends. *)
Theorem X21_getParams_of_one_plain_argument (args : string) :
  args ≠ "" →
  allChars paramPlainChar args = true →
  getParams args = [Js.trim (replace_all spacesRe (fun _ _ => " ") args)].
Proof.
  intros Hne Hp. unfold getParams, Regex.split.
  destruct args as [|a t]; [done|].
  by rewrite split_go_plain.
Qed.

End SkipFacts.

(** * Interpolation from end to end *)

Section InterpolationFacts.
Import Regex Plugin.

#[local] Arguments Ascii.eqb : simpl never.
#[local] Arguments Js.len : simpl never.
#[local] Arguments Js.take : simpl never.
#[local] Arguments Nat.eqb : simpl never.
#[local] Arguments Nat.ltb : simpl never.
#[local] Arguments Nat.sub : simpl never.

Lemma allChars_impl (p q : ascii → bool) (s : string) :
  (∀ a, p a = true → q a = true) → allChars p s = true → allChars q s = true.
Proof.
  intros H. induction s as [|a s IH]; [done|]. cbn [allChars].
  intros [Ha Hs]%andb_true_iff. by rewrite (H a Ha), IH.
Qed.

Lemma allChars_app (p : ascii → bool) (s t : string) :
  allChars p (s +:+ t) = allChars p s && allChars p t.
Proof.
  induction s as [|a s IH]; [done|]. rewrite str_app_cons. cbn [allChars].
  by rewrite IH, andb_assoc.
Qed.

(** A global replacement leaves a text as it is when the expression
    matches neither at a character of the text nor at its end. *)
Lemma replace_go_untouched (r : re) (f : string → caps → string) (p : ascii → bool)
    (s : string) (fuel n0 : nat) :
  (∀ a t, p a = true → exec_at r n0 (String a t) = None) →
  exec_at r n0 "" = None →
  allChars p s = true → Js.len s < fuel →
  replace_go fuel r f n0 s = s.
Proof.
  intros Hc He. revert fuel. induction s as [|a s IH]; intros fuel Hs Hf.
  - destruct fuel as [|fuel]; [done|]. rewrite replace_go_S. cbv zeta. by rewrite He.
  - cbn [allChars] in Hs. apply andb_true_iff in Hs as [Ha Hs].
    rewrite len_cons in Hf. destruct fuel as [|fuel]; [lia|].
    rewrite replace_go_S. cbv zeta. rewrite Hc by done. by rewrite IH by (done || lia).
Qed.

Lemma collapse_no_space (s : string) :
  allChars (fun a => negb (Js.is_space a)) s = true →
  replace_all spacesRe (fun _ _ => " ") s = s.
Proof.
  intros Hs. unfold replace_all.
  apply (replace_go_untouched _ _ (fun a => negb (Js.is_space a))); try done; [|lia].
  intros a t Ha. apply negb_true_iff in Ha.
  unfold exec_at, spacesRe, Plus. rewrite rmatch_Seq. cbn [rmatch]. by rewrite Ha.
Qed.

Lemma trim_no_space (s : string) :
  allChars (fun a => negb (Js.is_space a)) s = true → Js.trim s = s.
Proof.
  intros Hs. unfold Js.trim.
  assert (Js.trim_start s = s) as ->.
  { destruct s as [|a s]; [done|]. cbn [allChars] in Hs.
    apply andb_true_iff in Hs as [Ha _]. apply negb_true_iff in Ha.
    cbn [Js.trim_start]. by rewrite Ha. }
  induction s as [|a s IH]; [done|]. cbn [allChars] in Hs.
  apply andb_true_iff in Hs as [Ha Hs]. apply negb_true_iff in Ha.
  cbn [Js.trim_end]. rewrite IH by done. rewrite Ha. by destruct s.
Qed.

(** The braces around the params go. *)
Lemma exec_brackets_inner (n0 : nat) (a : ascii) (t : string) :
  Js.len (String a t) ≠ n0 →
  exec_at bracketsRe n0 (String a t)
  = match t with
    | "" => if Ascii.eqb "}" a then Some ("", [(3, String a "")]) else None
    | _ => None
    end.
Proof.
  intros Hn. unfold exec_at, bracketsRe, lit. simpl.
  apply Nat.eqb_neq in Hn. rewrite Hn.
  destruct t as [|b t]; [|by destruct (Ascii.eqb "}" a)].
  by destruct (Ascii.eqb "}" a).
Qed.

Lemma replace_go_brackets_tail (x : string) (fuel n0 : nat) :
  Js.len x + 2 ≤ fuel → Js.len x + 1 < n0 →
  replace_go fuel bracketsRe (fun _ _ => "") n0 (x +:+ "}") = x.
Proof.
  revert fuel. induction x as [|a x IH]; intros fuel Hf Hn.
  - change (Js.len "") with 0 in *.
    destruct fuel as [|[|fuel]]; [lia ..|].
    rewrite str_app_nil_l, replace_go_S. cbv zeta.
    rewrite exec_brackets_inner by (rewrite len_cons; change (Js.len "") with 0; lia).
    change (Ascii.eqb "}" "}") with true. cbv iota.
    change (Js.len "" <? Js.len "}") with true. cbv iota.
    rewrite replace_go_S. cbv zeta.
    assert (exec_at bracketsRe n0 "" = None) as ->; [|done].
    unfold exec_at, bracketsRe, lit. simpl.
    replace (Js.len "" =? n0) with false; [done|].
    symmetry. apply Nat.eqb_neq. change (Js.len "") with 0. lia.
  - rewrite len_cons in Hf, Hn. destruct fuel as [|fuel]; [lia|].
    rewrite str_app_cons, replace_go_S. cbv zeta.
    rewrite exec_brackets_inner
      by (rewrite len_cons, len_app; change (Js.len "}") with 1; lia).
    assert (∃ b s, x +:+ "}" = String b s) as (b & s & E)
      by (destruct x; cbn; eauto).
    rewrite E at 1. rewrite IH by lia. done.
Qed.

Lemma brackets_literal (x : string) :
  replace_all bracketsRe (fun _ _ => "") (String "{" (x +:+ "}")) = x.
Proof.
  unfold replace_all. rewrite replace_go_S. cbv zeta.
  assert (∃ c, exec_at bracketsRe (Js.len (String "{" (x +:+ "}")))
                 (String "{" (x +:+ "}")) = Some (x +:+ "}", c)) as [c ->].
  { unfold exec_at, bracketsRe, lit. simpl. rewrite Nat.eqb_refl. by eexists. }
  rewrite (proj2 (Nat.ltb_lt _ _)) by (rewrite len_cons; lia).
  match goal with |- "" +:+ ?r = _ => change (r = x) end.
  apply replace_go_brackets_tail;
    rewrite !len_cons, len_app; change (Js.len "}") with 1; lia.
Qed.

Lemma getParams_plain (args : string) :
  args ≠ "" → allChars paramPlainChar args = true →
  getParams args = [Js.trim (replace_all spacesRe (fun _ _ => " ") args)].
Proof.
  intros Hne Hp. unfold getParams, Regex.split.
  destruct args as [|a t]; [done|]. by rewrite split_go_plain.
Qed.

Lemma word_char_more (a : ascii) :
  Js.is_word a = true →
  placeholderChar a = true ∧ argChar a = true.
Proof. destruct a as [[] [] [] [] [] [] [] []]; cbv; auto. Qed.

(** X22. Let [name] be made of letters, digits and underscores, and let
    [expr] have no comma, quote character, white space or colon. On a value
    with the one placeholder [{{name}}], between two texts without an
    opening brace, and with the params [{name:expr}], [handleParams]
    returns the value between backticks with [${expr}] in place of the
    placeholder. *)
Theorem X22_handleParams_interpolates_a_named_param
    (pre post name expr : string) :
  allChars Js.is_word name = true →
  allChars argChar expr = true →
  allChars (isNot "{") pre = true →
  allChars (isNot "{") post = true →
  handleParams (pre +:+ "{{" +:+ name +:+ "}}" +:+ post)
    ("{" +:+ name +:+ ":" +:+ expr +:+ "}")
  = Some (quoteValue (pre +:+ "${" +:+ expr +:+ "}" +:+ post)).
Proof.
  intros Hname Hexpr Hpre Hpost.
  assert (allChars argChar name = true) as Hname'.
  { eapply allChars_impl; [|exact Hname]. intros a Ha. by apply word_char_more. }
  assert (allChars placeholderChar name = true) as Hkey.
  { eapply allChars_impl; [|exact Hname]. intros a Ha. by apply word_char_more. }
  assert (∀ s, allChars argChar s = true →
               allChars paramPlainChar s = true
               ∧ allChars (fun a => negb (Js.is_space a)) s = true
               ∧ allChars (isNot ":") s = true) as Hsplit.
  { intros s Hs. repeat split; (eapply allChars_impl; [|exact Hs]); intros a Ha;
      unfold argChar in Ha; apply andb_true_iff in Ha as [Ha H3];
      apply andb_true_iff in Ha as [H1 H2]; done. }
  destruct (Hsplit name Hname') as (Hn1 & Hn2 & Hn3).
  destruct (Hsplit expr Hexpr) as (He1 & He2 & He3).
  set (body := name +:+ ":" +:+ expr).
  unfold handleParams.
  change ("{" +:+ name +:+ ":" +:+ expr +:+ "}") with (String "{" (name +:+ ":" +:+ expr +:+ "}")).
  replace (name +:+ ":" +:+ expr +:+ "}") with (body +:+ "}")
    by (unfold body; by rewrite !str_app_assoc).
  rewrite brackets_literal.
  assert (body ≠ "") as Hne by (unfold body; by destruct name).
  assert (allChars paramPlainChar body = true) as Hb1.
  { unfold body. rewrite !allChars_app, Hn1, He1. done. }
  assert (allChars (fun a => negb (Js.is_space a)) body = true) as Hb2.
  { unfold body. rewrite !allChars_app, Hn2, He2. done. }
  rewrite getParams_plain, collapse_no_space, trim_no_space by done.
  cbn [fold_left]. f_equal. f_equal.
  assert (map Js.trim (Js.split body ":") = [name; expr]) as Hparts.
  { unfold body. change (name +:+ ":" +:+ expr) with (joinWith ":" [name; expr]).
    rewrite (split_joinWith ":"%char) by (done || by repeat constructor).
    cbn [map]. by rewrite !trim_no_space. }
  unfold handleParam. rewrite Hparts.
  rewrite replace_all_one_placeholder by done. cbv beta.
  assert (capture 1 [(1, name)] = Some name) as -> by reflexivity.
  rewrite String.eqb_refl. unfold interpolateParam.
  f_equal. change ("${" +:+ expr +:+ "}") with (String "$" (String "{" (expr +:+ "}"))).
  rewrite !str_app_cons. do 2 f_equal. by rewrite str_app_assoc.
Qed.

End InterpolationFacts.

(** * The further properties at concrete inputs *)

Section MoreInstances.
Import Plugin Build Scan Examples MoreExamples.

Lemma X2_witness :
  ∃ key rest,
    getKey "'k@@d'" "@@" = Some key
    ∧ trimQuotes "'k@@d'" = key +:+ rest
    ∧ ¬ occursIn "@@" key
    ∧ (¬ occursIn "@@" (trimQuotes "'k@@d'") → key = trimQuotes "'k@@d'").
Proof. apply (X2_getKey_is_free_of_the_separator "'k@@d'" "@@"). discriminate. Defined.

Lemma X3_witness :
  (callLangs options ["'k'"]).2 ∈ (callLangs options ["'k'"]).1
  ∧ (∀ lang, lang ∈ (callLangs options ["'k'"]).1 → lang ∈ options.(supportedLangs))
  ∧ (callLangs options ["'k'"] = (options.(supportedLangs), options.(defaultLang))
     ∨ (callLangs options ["'k'"]).1 = [(callLangs options ["'k'"]).2]).
Proof.
  apply (X3_callLangs_keeps_the_default_among_the_languages options ["'k'"]).
  simpl. apply elem_of_cons. right. apply list_elem_of_here.
Defined.

Lemma values_both (it en : string) (lang : string) :
  lang = "en-US" ∨ lang ∈ ["it-IT"; "en-US"] →
  valueIn runtime (dataset (JObj {[ "k" := JStr it ]}) (JObj {[ "k" := JStr en ]}))
    options "k" (getParams "'k'") lang
  = Ok (bothValues it en lang).
Proof.
  rewrite !elem_of_cons, elem_of_nil.
  intros [-> | [-> | [-> | []]]]; by vm_compute.
Qed.

Lemma X4_witness :
  inlineCall "$lang" (signature "'k', { n: 1 }, 3, 'it-IT'") runtime (dataset ciao empty) options
    "x = $translate('k', { n: 1 }, 3, 'it-IT');" []
    "$translate('k', { n: 1 }, 3, 'it-IT')"
  = Ok (Js.replace "x = $translate('k', { n: 1 }, 3, 'it-IT');"
          "$translate('k', { n: 1 }, 3, 'it-IT')" "`Ciao`", []).
Proof.
  apply (X4_language_argument_inlines_one_value "$lang"
           (signature "'k', { n: 1 }, 3, 'it-IT'") runtime (dataset ciao empty) options
           "x = $translate('k', { n: 1 }, 3, 'it-IT');" []
           "$translate('k', { n: 1 }, 3, 'it-IT')" "'k', { n: 1 }, 3, 'it-IT'"
           "'k'" "k" "`Ciao`" "it-IT" "'");
    try (vm_compute; reflexivity); [discriminate|].
  simpl. apply list_elem_of_here.
Defined.

Lemma X5_witness :
  inlineCall "$lang" (signature "'k'") runtime
    (initialTranslation options.(supportedLangs)) options
    "x = $translate('k');" [] "$translate('k')"
  = Ok ("x = $translate('k');",
        [] ++ ["en-US" +:+ " - missing value for key: " +:+ "k" +:+ " - Skip"]).
Proof.
  apply (X5_every_call_is_skipped_before_the_files_are_read "$lang" (signature "'k'")
           runtime options "x = $translate('k');" [] "$translate('k')" "'k'" "'k'" "k"
           "k" [] ["it-IT"; "en-US"] "en-US");
    try (vm_compute; reflexivity).
  simpl. apply elem_of_cons. right. apply list_elem_of_here.
Defined.

Lemma X6_witness :
  inlineCall "$lang" callSignature runtime (dataset empty empty) options
    "x = $translate('constructor.caller');" [] "$translate('constructor.caller')"
  = TypeError
  ↔ ∃ args,
      callSignature "$translate('constructor.caller')" = Some args
      ∧ Js.truthy args = true
      ∧ dynamicParams (getParams args) = false
      ∧ (getParams args = []
         ∨ ∃ param0 key,
             getParams args !! 0 = Some param0
             ∧ getKey param0 options.(keyValueSeparator) = Some key
             ∧ (valueIn runtime (dataset empty empty) options key (getParams args)
                  (callLangs options (getParams args)).2 = TypeError
                ∨ (∃ v, valueIn runtime (dataset empty empty) options key (getParams args)
                          (callLangs options (getParams args)).2 = Ok (Some v))
                  ∧ ∃ lang, lang ∈ (callLangs options (getParams args)).1
                            ∧ lang ≠ (callLangs options (getParams args)).2
                            ∧ valueIn runtime (dataset empty empty) options key
                                (getParams args) lang
                              = TypeError)).
Proof.
  apply (X6_TypeError_of_a_turn "$lang" callSignature runtime (dataset empty empty)
           options "x = $translate('constructor.caller');" []
           "$translate('constructor.caller')").
  discriminate.
Defined.

Lemma X7_witness :
  inlineCall "$lang" (signature "'k'") runtime (dataset prezzo price) options
    "a; $translate('k'); b" [] "$translate('k')"
  = Ok ("a; " +:+ (chainTerms "$lang" (bothValues "5 dollari" "5$")
                     ["it-IT"; "en-US"] "en-US" +:+ "`" +:+ "5" +:+ "a; ")
        +:+ "; b",
        [] ++ missingNotices "k" (bothValues "5 dollari" "5$")
                ["it-IT"; "en-US"] "en-US").
Proof.
  apply (X7_value_ending_with_a_dollar_copies_the_code_before_the_call "$lang"
           (signature "'k'") runtime (dataset prezzo price) options
           "a; $translate('k'); b" "a; " "; b" [] "$translate('k')" "'k'" "'k'" "k" "5"
           ["it-IT"; "en-US"] "en-US" (Some (Data price)) (bothValues "5 dollari" "5$"));
    try (vm_compute; reflexivity).
  apply (values_both "5 dollari" "5$").
Defined.

Lemma X8_witness : handleParams "Hello" "{ name: 'x' }" = Some (quoteValue "Hello").
Proof.
  apply (X8_handleParams_keeps_a_value_without_braces "Hello" "{ name: 'x' }").
  vm_compute; reflexivity.
Defined.

Lemma X9_witness :
  handleParam ("Hello " +:+ "{{" +:+ "name" +:+ "}}" +:+ "!") "name: user.name"
  = "Hello " +:+ (if String.eqb "name" "name" then "${" +:+ "user.name" +:+ "}"
                  else "{{" +:+ "name" +:+ "}}") +:+ "!".
Proof.
  apply (X9_handleParam_fills_the_placeholder_of_its_name "Hello " "name" "!"
           "name: user.name" "name" "user.name");
    vm_compute; reflexivity.
Defined.

Lemma X10_witness :
  getValue runtime (joinWith "." ["app"; "title"])
    (Some (Data (nest ["app"; "title"] (JStr "Hi")))) None "."
  = Ok (Some (quoteValue "Hi")).
Proof.
  apply (X10_getValue_follows_the_path runtime "." ["app"; "title"] "Hi");
    [discriminate | repeat constructor].
Defined.

Lemma X23_witness :
  (∀ s, runtime (Host "Object") "name" = Ok (Some (Data (JStr s))) →
        getValue runtime ("constructor" +:+ String "." "" +:+ "name")
          (Some (Data (JObj ∅))) None (String "." "")
        = Ok (Some (quoteValue s)))
  ∧ (runtime (Host "Object") "name" = TypeError →
     getValue runtime ("constructor" +:+ String "." "" +:+ "name")
       (Some (Data (JObj ∅))) None (String "." "")
     = TypeError).
Proof.
  apply (X23_getValue_reads_inherited_members runtime "." "constructor" "name"
           "Object" ∅);
    vm_compute; reflexivity.
Defined.

Lemma X11_witness :
  getValue runtime "SUBKEY1.BB" (Some (Data testTree)) None "." = Ok None.
Proof.
  apply (X11_getValue_stops_at_a_missing_entry runtime "SUBKEY1.BB" "." "BB"
           ["SUBKEY1"] [] (Some (Data testTree)) None {[ "AA" := JStr "aa" ]});
    [vm_compute; reflexivity | vm_compute; reflexivity
    | right; split; vm_compute; reflexivity].
Defined.

Lemma X12_witness :
  inlineCall "$lang" (signature "'k'") runtime (dataset ciao hello) options
    "x = $translate('k');" [] "$translate('k')"
  = Ok ("x = " +:+ chain "$lang" (bothValues "Ciao" "Hello")
                     ["it-IT"; "en-US"] "en-US" +:+ ";",
        [] ++ missingNotices "k" (bothValues "Ciao" "Hello")
                ["it-IT"; "en-US"] "en-US").
Proof.
  apply (X12_chain_without_patterns_is_inserted_as_it_is "$lang" (signature "'k'")
           runtime (dataset ciao hello) options "x = $translate('k');" "x = " ";" []
           "$translate('k')" "'k'" "'k'" "k" "`Hello`" ["it-IT"; "en-US"] "en-US"
           (bothValues "Ciao" "Hello"));
    try (vm_compute; reflexivity).
  apply (values_both "Ciao" "Hello").
Defined.

Lemma X13_witness :
  getParams (String "'" ("x, y" +:+ String "'" ""))
  = [Js.trim (Regex.replace_all spacesRe (fun _ _ => " ")
                (String "'" ("x, y" +:+ String "'" "")))].
Proof.
  apply (X13_getParams_keeps_a_quoted_literal_whole "'" "x, y");
    [by right | vm_compute; reflexivity].
Defined.

Lemma X16_witness :
  ∃ args arg0,
    Some args ∈ [identifierCall; literalCall]
    ∧ args !! 0 = Some arg0 ∧ argValue arg0 = Some "app.title"
    ∧ argType arg0 ≠ "Identifier"
    ∧ ∀ i, i = 1 ∨ i = 2 ∨ i = 3 →
           typeAt args i "Identifier" = false ∧ typeAt args i "CallExpression" = false.
Proof.
  apply (X16_no_key_comes_from_a_dynamic_call ∅ [identifierCall; literalCall] "app.title").
  vm_compute. apply list_elem_of_here.
Defined.

Lemma X18_witness :
  ∃ data,
    loadData parseTwoFiles ".json" (["A"] ++ ["B"]) = Some data
    ∧ getValue runtime "app.a" (Some (Data (JObj data))) None "."
      = getValue runtime "app.a"
          (Some (Data (JObj {[ "app" := JObj {[ "b" := JStr "second" ]} ]}))) None ".".
Proof.
  apply (X18_a_later_file_hides_the_entries_of_the_earlier_ones runtime parseTwoFiles
           ["A"] "B" "app.a" "." "app" ["a"] None
           {[ "app" := JObj {[ "a" := JStr "first" ]} ]}
           {[ "app" := JObj {[ "b" := JStr "second" ]} ]}
           (JObj {[ "b" := JStr "second" ]}));
    vm_compute; reflexivity.
Defined.

End MoreInstances.

Section SkipInstances.
Import Plugin Examples.

Lemma X20_witness :
  inlineCall "$lang" (signature "'k', params") runtime (dataset ciao hello) options
    "x = $translate('k', params);" [] "$translate('k', params)"
  = Ok ("x = $translate('k', params);", []).
Proof.
  apply (X20_a_call_with_an_identifier_as_params_is_left_alone "$lang"
           (signature "'k', params") runtime (dataset ciao hello) options
           "x = $translate('k', params);" [] "$translate('k', params)"
           "'k', params" "params");
    try (vm_compute; reflexivity). discriminate.
Defined.

Lemma X21_witness :
  getParams "head.title" = [Js.trim (Regex.replace_all spacesRe (fun _ _ => " ") "head.title")].
Proof.
  apply (X21_getParams_of_one_plain_argument "head.title");
    [discriminate | vm_compute; reflexivity].
Defined.

End SkipInstances.

Section InterpolationInstances.
Import Plugin.

Lemma X22_witness :
  handleParams ("Hello " +:+ "{{" +:+ "name" +:+ "}}" +:+ "!")
    ("{" +:+ "name" +:+ ":" +:+ "user.name" +:+ "}")
  = Some (quoteValue ("Hello " +:+ "${" +:+ "user.name" +:+ "}" +:+ "!")).
Proof.
  apply (X22_handleParams_interpolates_a_named_param "Hello " "!" "name" "user.name");
    vm_compute; reflexivity.
Defined.

End InterpolationInstances.
